(** * Glyph decluttering engine of paperSoundSourceViz

    Shallow embedding of the greedy overlap filter
    ([filterOverlappingRosesGreedy]), of the clustering filter
    ([filterOverlappingRosesKmeans]) with its cache tiers, and of the
    k-means helpers ([smartInit], [reInitCentroid], [generateWeightedList],
    [randomIndex], [parallelClassifiers], and the workers' [classifyData]
    and [moveCenters]).

    - JavaScript numbers are IEEE-754 binary64 values, modelled by
      primitive floats: [+], [-], [*], [/], the comparisons and
      [Math.sqrt] are the operations the engine performs.  [Math.cos],
      [Math.acos] and [Math.pow] are parameters ([MathLib]).
    - Sensor identifiers are strings (the keys of the loaded JSON object).
      JavaScript objects used as dictionaries are finite maps keyed by
      strings, under the assumption that no identifier is the name of a
      property inherited from [Object.prototype]; counters of sensors are
      natural numbers.
    - A property read that may yield [undefined] is an [option]; an
      exception is [None] (or [Threw] for the clustering filter).
    - [Math.random()] reads its draws from a list; the replies of the
      workers arrive in an order given as input; the static files,
      [localStorage], [JSON] and the k-means run as a whole belong to the
      [Host] of the clustering filter. *)

From Stdlib Require Import Floats ZArith Lia.
From stdpp Require Import gmap strings list.

(** ** JavaScript numbers *)

Module JsNum.

Abbreviation number := float.

(** [x > y] and [x < y] on numbers. *)
Definition gt (x y : number) : bool := PrimFloat.ltb y x.
Definition lt (x y : number) : bool := PrimFloat.ltb x y.

(** [x >= y], [x <= y]. *)
Definition ge (x y : number) : bool := PrimFloat.leb y x.
Definition le (x y : number) : bool := PrimFloat.leb x y.

(** [x === y] on numbers: IEEE equality ([0 === -0], [NaN !== NaN]). *)
Definition strict_eq (x y : number) : bool := PrimFloat.eqb x y.

(** Truthiness of a number: every number but [0], [-0] and [NaN]. *)
Definition truthy (x : number) : bool :=
  negb (PrimFloat.eqb x 0%float || PrimFloat.is_nan x).

(** A possibly [undefined] number, as produced by a property read. *)
Definition truthy_opt (v : option number) : bool :=
  match v with Some x => truthy x | None => false end.

(** [v || w] on possibly undefined numbers. *)
Definition or (v w : option number) : option number :=
  if truthy_opt v then v else w.

(** [v || 0]. *)
Definition or_zero (v : option number) : number :=
  match v with
  | Some x => if truthy x then x else 0%float
  | None => 0%float
  end.

(** The number of a length or of a loop counter (exact below 2^53). *)
Definition of_nat (n : nat) : number :=
  PrimFloat.of_uint63 (Uint63.of_Z (Z.of_nat n)).

End JsNum.


(** ** The host's [Math] functions

    [Math.cos], [Math.acos] and [Math.pow] are left to the implementation
    by ECMAScript; the engine is verified for every choice of them.
    [Math.sqrt] and [Math.abs] are the IEEE operations. *)

Class MathLib := {
  Math_cos : JsNum.number -> JsNum.number;
  Math_acos : JsNum.number -> JsNum.number;
  Math_pow : JsNum.number -> JsNum.number -> JsNum.number
}.

Module JsMath.

Import JsNum.

(** [Math.PI], 3.141592653589793. *)
Definition Math_PI : number := 0x1.921fb54442d18p+1%float.
Definition Math_sqrt (x : number) : number := PrimFloat.sqrt x.
Definition Math_abs (x : number) : number := PrimFloat.abs x.

(** [Math.min(x, y)]: [NaN] when an argument is, [-0] below [+0]. *)
Definition Math_min (x y : number) : number :=
  if PrimFloat.is_nan x || PrimFloat.is_nan y then PrimFloat.nan
  else if PrimFloat.eqb x y then (if PrimFloat.get_sign x then x else y)
  else if PrimFloat.ltb y x then y else x.

(** [Math.min(...xs)]; [Infinity] for no argument. *)
Definition Math_min_list (xs : list number) : number :=
  foldl Math_min PrimFloat.infinity xs.

(** The largest integer not above a finite [x], from its IEEE
    decomposition [(-1)^s * m * 2^e]. *)
Definition floorZ (x : number) : option Z :=
  match Prim2SF x with
  | S754_zero _ => Some 0%Z
  | S754_finite s m e =>
      let n := if s then Z.neg m else Z.pos m in
      Some (if (0 <=? e)%Z then n * 2 ^ e else n `div` 2 ^ (- e))%Z
  | _ => None
  end.

(** The number of an integer below 2^53 in absolute value. *)
Definition number_of_Z (z : Z) : number :=
  if (z <? 0)%Z then (- PrimFloat.of_uint63 (Uint63.of_Z (- z)))%float
  else PrimFloat.of_uint63 (Uint63.of_Z z).

(** [Math.floor(x)]; a number with a fractional part is below 2^53. *)
Definition Math_floor (x : number) : number :=
  match Prim2SF x with
  | S754_finite _ _ e =>
      if (e <? 0)%Z then
        match floorZ x with Some z => number_of_Z z | None => x end
      else x
  | _ => x
  end.

(** The array index a number denotes: [arr[x]] reads an element only
    when [x] is a non-negative integer. *)
Definition index_of (x : number) : option nat :=
  match Prim2SF x with
  | S754_zero _ => Some 0
  | S754_finite false m e =>
      if (0 <=? e)%Z then Some (Z.to_nat (Z.pos m * 2 ^ e))
      else if (Z.pos m `mod` 2 ^ (- e) =? 0)%Z
           then Some (Z.to_nat (Z.pos m `div` 2 ^ (- e)))
           else None
  | _ => None
  end.

(** [arr[x]] for a number [x]; [None] is [undefined]. *)
Definition at_number {A} (arr : list A) (x : number) : option A :=
  index_of x ≫= fun i => arr !! i.

(** A possibly undefined operand of an arithmetic operator. *)
Definition to_number (v : option number) : number := default PrimFloat.nan v.

(** [arr.reduce(f)] without initial value; [None] is the [TypeError]
    raised on an empty array. *)
Definition reduce1 {A} (f : A -> A -> A) (arr : list A) : option A :=
  match arr with
  | [] => None
  | x :: rest => Some (foldl f x rest)
  end.

End JsMath.

(** ** Input records and the selection result *)

(** One element of [dataArray]; a [null] coordinate acts as [0] in the
    arithmetic below, the renderer's other fields are not read. *)
Record Datum := {
  sensor : string;
  latitude : JsNum.number;
  longitude : JsNum.number
}.

Record SelectionResult := {
  filteredOutSensors : list string;
  filteredInSensors : list string;
  hiddenCountsMap : gmap string nat
}.

(** The two lists of a result split the identifiers [ids]. *)
Definition partitions (ids : list string) (r : SelectionResult) : Prop :=
  (forall s, s ∈ ids <-> s ∈ filteredInSensors r \/ s ∈ filteredOutSensors r)
  /\ (forall s, ~ (s ∈ filteredInSensors r /\ s ∈ filteredOutSensors r)).

Definition emptyResult : SelectionResult :=
  {| filteredOutSensors := []; filteredInSensors := []; hiddenCountsMap := ∅ |}.

(** Truthiness of a string: every string but the empty one. *)
Definition truthy_str (s : string) : bool := negb (String.eqb s "").

(** ** The greedy selector *)

Module Greedy.

Import JsNum JsMath.

Record SensorBound := {
  bsensor : string;
  lat : number;
  lon : number;
  maxRadiusLat : number;
  maxRadiusLon : number;
  radius : number
}.

Definition offsetCoeff : number := 1.0%float.

Section Geometry.
Context `{MathLib}.

Definition isOverlapping (a b : SensorBound) (offsetCoeff : number) : bool :=
  let latDiff := ((lat a - lat b) * 111320)%float in
  let lonDiff :=
    ((lon a - lon b) * 111320
     * Math_cos ((lat a + lat b) / 2 * Math_PI / 180))%float in
  let dist := Math_sqrt (latDiff * latDiff + lonDiff * lonDiff)%float in
  le dist ((radius a + radius b) * offsetCoeff)%float.

Definition calculateIntersectionArea (a b : SensorBound) : number :=
  let d := Math_sqrt (Math_pow (lat a - lat b) 2 + Math_pow (lon a - lon b) 2)%float in
  if ge d (radius a + radius b)%float then 0%float
  else if le d (Math_abs (radius a - radius b)%float)
  then (Math_PI * Math_pow (Math_min (radius a) (radius b)) 2)%float
  else
    let r1 := radius a in
    let r2 := radius b in
    let part1 := (r1 * r1 * Math_acos ((d * d + r1 * r1 - r2 * r2) / (2 * d * r1)))%float in
    let part2 := (r2 * r2 * Math_acos ((d * d + r2 * r2 - r1 * r1) / (2 * d * r2)))%float in
    let part3 :=
      (0.5 * Math_sqrt ((- d + r1 + r2) * (d + r1 - r2) * (d - r1 + r2) * (d + r1 + r2)))%float in
    (part1 + part2 - part3)%float.

Definition sensorBounds (dataArray : list Datum) (radius : number) : list SensorBound :=
  map (fun d =>
         {| bsensor := sensor d;
            lat := latitude d;
            lon := longitude d;
            maxRadiusLat := (offsetCoeff * radius / 111320)%float;
            maxRadiusLon :=
              (offsetCoeff * radius
               / (111320 * Math_cos (latitude d * (Math_PI / 180))))%float;
            radius := radius |})
      dataArray.

(** Step 1, inner loop: the row of [a], the [i]-th bound. *)
Definition intersectRow (a : SensorBound) (i : nat) (bs : list SensorBound)
  : gmap string number :=
  foldl (fun row '(j, b) =>
           if decide (i = j) then row
           else if isOverlapping a b offsetCoeff then
             let area := calculateIntersectionArea a b in
             if gt area 0 then <[bsensor b := area]> row else row
           else row)
        ∅ (imap pair bs).

(** Step 1, outer loop: [intersectMatrix]. *)
Definition buildIntersectMatrix (bs : list SensorBound)
  : gmap string (gmap string number) :=
  foldl (fun M '(i, a) => <[bsensor a := intersectRow a i bs]> M)
        ∅ (imap pair bs).

End Geometry.

Abbreviation matrix := (gmap string (gmap string number)).

(** [intersectMatrix[a]?.[b]] *)
Definition cell (M : matrix) (a b : string) : option number :=
  M !! a ≫= fun row => row !! b.

(** [intersectMatrix[a]?.[b] || intersectMatrix[b]?.[a]], as a condition. *)
Definition overlaps (M : matrix) (a b : string) : bool :=
  truthy_opt (or (cell M a b) (cell M b a)).

(** Step 2. *)
Definition initialFilteredIn (M : matrix) (ids : list string)
    (curPresentSensors : option (list string)) : list string :=
  match curPresentSensors with
  | Some cur => filter (fun s => negb (existsb (fun p => overlaps M s p) cur)) ids
  | None => ids
  end.

(** Step 3, the sum accumulated in [totalIntersectionArea[s]]. *)
Definition totalFor (M : matrix) (working : list string) (s : string) : number :=
  foldl (fun acc other =>
           if decide (s <> other) then (acc + or_zero (cell M s other))%float else acc)
        0%float working.

Definition totalIntersectionArea (M : matrix) (working : list string)
  : gmap string number :=
  foldl (fun T s => <[s := totalFor M working s]> T) ∅ working.

(** Step 3, the scan for [maxSensor] and [maxArea]. *)
Definition pickMax (T : gmap string number) (working : list string)
  : option string * number :=
  foldl (fun '(maxSensor, maxArea) s =>
           match T !! s with
           | Some t => if gt t maxArea then (Some s, t) else (maxSensor, maxArea)
           | None => (maxSensor, maxArea)
           end)
        (None, (-1)%float) working.

(** The filter that follows the choice of [maxSensor]. *)
Definition removeOverlapping (M : matrix) (maxSensor : string)
    (working : list string) : list string :=
  filter (fun s => s = maxSensor \/ ~ overlaps M maxSensor s) working.

(** Step 3, one pass of the loop body up to the [break] test: [Some m]
    when the loop goes on with [maxSensor = m], [None] when it stops
    (empty list, no [maxSensor], a falsy one, or [maxArea === 0]). *)
Definition pickOrBreak (M : matrix) (filteredIn : list string) : option string :=
  match filteredIn with
  | [] => None
  | _ :: _ =>
      let T := totalIntersectionArea M filteredIn in
      let '(maxSensor, maxArea) := pickMax T filteredIn in
      match maxSensor with
      | None => None
      | Some m =>
          if negb (truthy_str m) || strict_eq maxArea 0 then None else Some m
      end
  end.

(** Step 3, the [while] loop; it yields [selected] and the final
    [filteredInSensors], and [None] only when [fuel] iterations were not
    enough. *)
Fixpoint greedyLoop (fuel : nat) (M : matrix)
    (filteredIn selected : list string) : option (list string * list string) :=
  match fuel with
  | O => None
  | S fuel' =>
      match pickOrBreak M filteredIn with
      | None => Some (selected, filteredIn)
      | Some m =>
          greedyLoop fuel' M (removeOverlapping M m filteredIn) (selected ++ [m])
      end
  end.

(** The states the loop goes through from a given state. *)
Inductive loopReach (M : matrix)
  : list string * list string -> list string * list string -> Prop :=
| reach_here st : loopReach M st st
| reach_next selected filteredIn m st :
    pickOrBreak M filteredIn = Some m ->
    loopReach M (selected ++ [m], removeOverlapping M m filteredIn) st ->
    loopReach M (selected, filteredIn) st.

(** Step 4: the area read for a (visible, hidden) pair. *)
Definition pairArea (M : matrix) (visible hidden : string) : number :=
  or_zero (or (cell M visible hidden) (cell M hidden visible)).

Definition bestStep (M : matrix) (visible : string)
    (hb : gmap string (string * number)) (hidden : string)
  : gmap string (string * number) :=
  let area := pairArea M visible hidden in
  if gt area 0 then
    match hb !! hidden with
    | None => <[hidden := (visible, area)]> hb
    | Some (_, best) =>
        if gt area best then <[hidden := (visible, area)]> hb else hb
    end
  else hb.

Definition hiddenToBestVisible (M : matrix) (visibles hiddens : list string)
  : gmap string (string * number) :=
  foldl (fun hb visible => foldl (bestStep M visible) hb hiddens) ∅ visibles.

(** [hiddenCountsMap[visible] = (hiddenCountsMap[visible] || 0) + 1] for
    every key of [hiddenToBestVisible]. *)
Definition countHidden (hb : gmap string (string * number)) : gmap string nat :=
  map_fold (fun _ '(visible, _) counts =>
              <[visible := default 0 (counts !! visible) + 1]> counts)
           ∅ hb.

(** [hiddenCountsMap[key] += 1] for every key. *)
Definition addSelf (counts : gmap string nat) : gmap string nat :=
  (fun n => n + 1) <$> counts.

Section Selector.
Context `{MathLib}.

(** The selector's body up to the end of the loop: [intersectMatrix],
    [selected] and the final [filteredInSensors]. *)
Definition greedySelect (dataArray : list Datum) (radius : number)
    (curPresentSensors : option (list string))
  : matrix * option (list string * list string) :=
  let bs := sensorBounds dataArray radius in
  let M := buildIntersectMatrix bs in
  let start := initialFilteredIn M (map bsensor bs) curPresentSensors in
  (M, greedyLoop (S (length start)) M start []).

Definition filterOverlappingRosesGreedy (dataArray : list Datum)
    (radius : number) (curPresentSensors : option (list string))
  : option SelectionResult :=
  match dataArray with
  | [] => Some emptyResult
  | _ :: _ =>
      let bs := sensorBounds dataArray radius in
      let '(M, loop) := greedySelect dataArray radius curPresentSensors in
      match loop with
      | None => None
      | Some (_, finalFilteredInSensors) =>
          let filteredOut :=
            filter (fun s => s ∉ finalFilteredInSensors) (map bsensor bs) in
          let hb := hiddenToBestVisible M finalFilteredInSensors filteredOut in
          Some {| filteredOutSensors := filteredOut;
                  filteredInSensors := finalFilteredInSensors;
                  hiddenCountsMap := addSelf (countHidden hb) |}
      end
  end.


End Selector.

(** *** Notions used to state the selector's properties *)


(** Every sensor picked so far is in the working list, and no sensor of
    the working list overlaps it. *)
Definition pickedKept (M : matrix) (sel w : list string) : Prop :=
  forall p, p ∈ sel -> p ∈ w /\ forall s, s ∈ w -> s = p \/ overlaps M p s = false.

(** The working list only loses elements. *)
Definition within (ids : list string) (sel w : list string) : Prop :=
  forall s, s ∈ w -> s ∈ ids.

(** The result assembled after the loop, from [intersectMatrix], the
    input identifiers and the final [filteredInSensors]. *)
Definition resultOf (M : matrix) (ids final : list string) : SelectionResult :=
  let out := filter (fun s => s ∉ final) ids in
  {| filteredOutSensors := out;
     filteredInSensors := final;
     hiddenCountsMap := addSelf (countHidden (hiddenToBestVisible M final out)) |}.





End Greedy.


(** ** The k-means helpers of the main thread *)

Module KMeans.

Import JsNum JsMath.

Abbreviation point := (list number).

(** [Math.random()]: the draws are read from a list; [None] when the
    list is exhausted. *)
Definition random (draws : list number) : option (number * list number) :=
  match draws with
  | [] => None
  | u :: rest => Some (u, rest)
  end.

Section MainThread.
Context `{MathLib}.

(** [zip]: [undefined] arrays are dropped, then row [i] collects
    [array[i]] of every array. *)
Definition zip (arrays : list (option point)) : list (list (option number)) :=
  match omap id arrays with
  | [] => []
  | a0 :: rest =>
      imap (fun i _ => map (fun array : point => array !! i) (a0 :: rest)) a0
  end.

(** [elem.reduce((prev, current) => prev - current)] *)
Definition reduceSub (elem : list (option number)) : option (option number) :=
  reduce1 (fun prev current => Some (to_number prev - to_number current)%float) elem.

(** In [calcDistance] and below, [None] is a [TypeError]. *)
Definition calcDistance (pointOne pointTwo : option point) : option number :=
  squares ← mapM (fun elem => r ← reduceSub elem; Some (Math_pow (to_number r) 2))
                 (zip [pointOne; pointTwo]);
  total ← reduce1 PrimFloat.add squares;
  Some (Math_sqrt total).

Definition scalarDivide (arrayOne : list number) (scalar : number) : list number :=
  map (fun elem => (elem / scalar)%float) arrayOne.

Definition minDistanceToCentroid (datapoints : list point)
    (centroids : list (option point)) : option (list number) :=
  mapM (fun point =>
          distances ← mapM (fun center => calcDistance (Some point) center) centroids;
          Some (Math_min_list distances))
       datapoints.

(** The inner loop of [generateWeightedList]:
    [for (j = 0; j < multiples; j++) push(item)], from counter [j];
    [None] when [fuel] passes were not enough. *)
Fixpoint pushCopies {A} (fuel : nat) (j : nat) (multiples : number) (item : A)
  : option (list A) :=
  match fuel with
  | O => None
  | S fuel' =>
      if lt (of_nat j) multiples
      then rest ← pushCopies fuel' (S j) multiples item; Some (item :: rest)
      else Some []
  end.

(** [generateWeightedList(list, weights)], with [items] for [list];
    [fuel] bounds the passes of the inner loop for one weight. *)
Definition generateWeightedList {A} (fuel : nat) (items : list A)
    (weights : list number) : option (list (option A)) :=
  chunks ← mapM (fun '(i, w) => pushCopies fuel 0 (w * 100)%float (items !! i))
                (imap pair weights);
  Some (concat chunks).

Definition randomIndex (max : number) (draws : list number)
  : option (number * list number) :=
  '(u, rest) ← random draws;
  Some (Math_floor (u * (max + 1))%float, rest).

(** [distances.reduce((p, c) => p + c)] then [scalarDivide]. *)
Definition normalise (distances : list number) : option (list number) :=
  total ← reduce1 PrimFloat.add distances;
  Some (scalarDivide distances total).

(** A normalised weight is at most 1, so the inner loop makes at most 101
    tests for it. *)
Definition copiesFuel : nat := 101.

(** The draw of an index from the weighted list and the read of the
    data point: [data[weightedList[randomIndex(weightedList.length)]]]. *)
Definition drawPoint (data : list point) (weights : list number)
    (draws : list number) : option (option point * list number) :=
  weightedList ← generateWeightedList copiesFuel (seq 0 (length data)) weights;
  '(r, rest) ← randomIndex (of_nat (length weightedList)) draws;
  let idx := mjoin (at_number weightedList r) in
  Some (idx ≫= fun i => data !! i, rest).

(** The loop [for (let i = 1; i < k; i++)] of [smartInit], with
    [count] passes left. *)
Fixpoint seedMore (count : nat) (data : list point)
    (centroids : list (option point)) (weights : list number)
    (draws : list number) : option (list (option point) * list number) :=
  match count with
  | O => Some (centroids, draws)
  | S count' =>
      '(c, draws') ← drawPoint data weights draws;
      let centroids' := centroids ++ [c] in
      distances ← minDistanceToCentroid data centroids';
      weights' ← normalise distances;
      seedMore count' data centroids' weights' draws'
  end.

Definition smartInit (data : list point) (k : nat) (draws : list number)
  : option (list (option point) * list number) :=
  '(u, draws') ← random draws;
  let c0 := at_number data (Math_floor (u * of_nat (length data))%float) in
  distances ← mapM (fun point => calcDistance (Some point) c0) data;
  weights ← normalise distances;
  seedMore (k - 1) data [c0] weights draws'.

Definition reInitCentroid (datapoints : list point)
    (centroids : list (option point)) (draws : list number)
  : option (option point * list number) :=
  distances ← minDistanceToCentroid datapoints centroids;
  weights ← normalise distances;
  drawPoint datapoints weights draws.

End MainThread.

(** *** The fan-out and fan-in of one classification pass *)

(** [splitData]: the first half (rounded down) and the rest. *)
Definition splitData {A} (data : list A) : list (list A) :=
  let n := length data `div` 2 in
  [take n data; drop n data].

(** [combineData]: [data[0]] followed by [data[1]]; [None] is the
    [TypeError] of a missing bucket. *)
Definition combineData {A} (data : list (list A)) : option (list A) :=
  match data with
  | d0 :: d1 :: _ => Some (d0 ++ d1)
  | _ => None
  end.

(** The variables shared by the [onmessage] handlers of one pass, and the
    recombined vector once the last reply has come. *)
Record passState := {
  complete : nat;
  classified_data : list (list Z);
  combined : option (list Z)
}.

Definition passStart : passState :=
  {| complete := 0; classified_data := []; combined := None |}.

(** The handler run when a worker's reply [a_data] arrives. *)
Definition onmessage (buckets : nat) (st : passState) (a_data : list Z) : passState :=
  let complete' := complete st + 1 in
  let pushed := classified_data st ++ [a_data] in
  if decide (complete' = buckets)
  then {| complete := complete'; classified_data := pushed;
          combined := combineData pushed |}
  else {| complete := complete'; classified_data := pushed;
          combined := combined st |}.

(** One pass of [parallelClassifiers]: bucket [i] goes to worker [i],
    whose reply is [classify bucket centroids] (no reply when the worker
    throws); [order] lists the workers in the order their replies arrive.
    The result is the recombined assignment vector, if the pass got that
    far. *)
Definition parallelClassifiers {P C} (classify : list P -> C -> option (list Z))
    (data : list P) (centroids : C) (order : list nat) : option (list Z) :=
  let data_buckets := splitData data in
  let final :=
    foldl (fun st i =>
             match data_buckets !! i ≫= fun bucket => classify bucket centroids with
             | Some reply => onmessage (length data_buckets) st reply
             | None => st
             end)
          passStart order in
  combined final.

End KMeans.

(** ** The recentering worker *)

Module MoveWorker.

Import JsNum JsMath KMeans.

(** [zip] of two arrays, then [p + c] on each row. *)
Definition vectorAdd (arrayOne arrayTwo : point) : point :=
  imap (fun i x => (x + to_number (arrayTwo !! i))%float) arrayOne.

Definition scalarDivide (arrayOne : point) (scalar : number) : point :=
  map (fun elem => (elem / scalar)%float) arrayOne.

(** The points kept by [assignments[dataIdx] === clusterIdx]. *)
Definition members (datapoints : list point) (assignments : list Z)
    (clusterIdx : nat) : list point :=
  omap (fun '(dataIdx, point) =>
          if decide (assignments !! dataIdx = Some (Z.of_nat clusterIdx))
          then Some point else None)
       (imap pair datapoints).

(** [None] is the [TypeError] of [reduce] on a cluster without point. *)
Definition moveCenters {C} (datapoints : list point) (centers : list C)
    (assignments : list Z) : option (list point) :=
  mapM (fun '(clusterIdx, center) =>
          total ← reduce1 vectorAdd (members datapoints assignments clusterIdx);
          Some (scalarDivide total (of_nat (length datapoints))))
       (imap pair centers).

(** The arithmetic mean as the specification words it: the componentwise
    sum of the points assigned to a cluster, divided by the number of
    points assigned to that cluster. *)
Definition meanOfMembers (datapoints : list point) (assignments : list Z)
    (clusterIdx : nat) : option point :=
  let group := members datapoints assignments clusterIdx in
  total ← reduce1 vectorAdd group;
  Some (scalarDivide total (of_nat (length group))).

End MoveWorker.

(** ** The classification worker *)

Module ClassifyWorker.

Import JsNum JsMath KMeans.

Section Worker.
Context `{MathLib}.

(** [zip]: only non-empty arrays are kept. *)
Definition zip (arrays : list (option point)) : list (list (option number)) :=
  match omap (fun a => a ≫= fun p => match p with [] => None | _ => Some p end) arrays with
  | [] => []
  | a0 :: rest =>
      imap (fun i _ => map (fun array : point => array !! i) (a0 :: rest)) a0
  end.

Definition calcDistance (pointOne pointTwo : option point) : option number :=
  squares ← mapM (fun elem =>
                    r ← reduce1 (fun prev current =>
                                   Some (to_number prev - to_number current)%float) elem;
                    Some (Math_pow (to_number r) 2))
                 (zip [pointOne; pointTwo]);
  total ← reduce1 PrimFloat.add squares;
  Some (Math_sqrt total).

(** [distance.indexOf(x)], [-1] when no element is [=== x]. *)
Fixpoint indexOf (distance : list number) (x : number) (from : Z) : Z :=
  match distance with
  | [] => (-1)%Z
  | d :: rest => if strict_eq d x then from else indexOf rest x (from + 1)%Z
  end.

Definition classifyData (datapoints : list point)
    (centers : list (option point)) : option (list Z) :=
  mapM (fun point =>
          distance ← mapM (fun center => calcDistance (Some point) center) centers;
          Some (indexOf distance (Math_min_list distance) 0))
       datapoints.

End Worker.

End ClassifyWorker.

(** ** The clustering selector and its cache tiers *)

Module KmeansFilter.

Import JsNum JsMath KMeans.

(** What a cache tier yields after [JSON.parse]: a selection result or
    some other JSON value, kept as its text. *)
Inductive jsvalue :=
| VResult (r : SelectionResult)
| VOther (text : string).

(** How a call ends: with a value, with an exception (a rejected
    promise), or never. *)
Inductive outcome :=
| Returned (v : jsvalue)
| Threw (error : string)
| Pending.

(** How [KMeans.run] ends: it calls back with the [data] (assignments)
    and [centroids] fields, it throws while starting (the promise is
    rejected), or it never calls back. *)
Inductive runOutcome :=
| CalledBack (clusters : list Z) (centroids : list (option point))
| RunThrew
| NoCallBack.

(** The host of a call.
    - [staticFile path]: what [fetch(path)] followed by [response.json()]
      yields; [None] when the response is not ok or either step throws.
    - [setItemWorks]: whether [localStorage.setItem] succeeds.
    - [kmeansRun k data]: how [KMeans.run] ends on [k] and [data].
    - [JSON_stringify], [JSON_parse]: [None] is a [SyntaxError]. *)
Record Host := {
  staticFile : string -> option jsvalue;
  setItemWorks : bool;
  kmeansRun : nat -> list point -> runOutcome;
  JSON_stringify : SelectionResult -> string;
  JSON_parse : string -> option jsvalue
}.

Definition CACHE_DIR : string := "./cache".

Definition cacheKey (filterName : string) : string := "filterCache-" +:+ filterName.

Definition cacheFilePath (filterName : string) : string :=
  CACHE_DIR +:+ "/" +:+ filterName +:+ "_cache.json".

(** [clearCache]: the entry of the key is removed from [localStorage]
    (the Cache Storage entry it also deletes is never read). *)
Definition clearCache (filterName : string) (localStorage : gmap string string)
  : gmap string string :=
  delete (cacheKey filterName) localStorage.

Definition clusterSizes : gmap string nat :=
  {[ "0" := 1; "1" := 2; "2" := 9; "3" := 18; "4" := 24 ]}.

(** [clusterSizes[zoomLevel] || 8] *)
Definition numClusters (zoomLevel : string) : nat :=
  match clusterSizes !! zoomLevel with
  | Some 0 | None => 8
  | Some n => n
  end.

(** [sensorsByCluster]: a [Map] in insertion order. *)
Abbreviation groups := (list (option Z * list Datum)).

Definition pushToGroup (clusterIndex : option Z) (sensorData : Datum)
    (sensorsByCluster : groups) : groups :=
  if decide (clusterIndex ∈ sensorsByCluster.*1)
  then map (fun '(key, sensorGroup) =>
              if decide (key = clusterIndex)
              then (key, sensorGroup ++ [sensorData]) else (key, sensorGroup))
           sensorsByCluster
  else sensorsByCluster ++ [(clusterIndex, [sensorData])].

Definition groupByCluster (dataArray : list Datum) (clusters : list Z) : groups :=
  foldl (fun sensorsByCluster '(index, sensorData) =>
           pushToGroup (clusters !! index) sensorData sensorsByCluster)
        [] (imap pair dataArray).

(** [kmeans.centroids[clusterIndex]] *)
Definition centroidOf (centroids : list (option point)) (clusterIndex : option Z)
  : option point :=
  match clusterIndex with
  | Some z => if (0 <=? z)%Z then mjoin (centroids !! Z.to_nat z) else None
  | None => None
  end.

(** [Set.add], in insertion order. *)
Definition setAdd (x : string) (set : list string) : list string :=
  if decide (x ∈ set) then set else set ++ [x].

Section Reduction.
Context `{MathLib}.

Definition distanceTo (centroid : point) (sensor : Datum) : number :=
  Math_sqrt (Math_pow (latitude sensor - to_number (centroid !! 0%nat)) 2
             + Math_pow (longitude sensor - to_number (centroid !! 1%nat)) 2)%float.

(** The scan for [bestSensor], from [sensorGroup[0]] and [Infinity]. *)
Definition closest (centroid : point) (first : Datum) (sensorGroup : list Datum)
  : Datum * number :=
  foldl (fun '(bestSensor, minDistance) sensor =>
           let distance := distanceTo centroid sensor in
           if lt distance minDistance then (sensor, distance)
           else (bestSensor, minDistance))
        (first, PrimFloat.infinity) sensorGroup.

(** The representative of a group; [None] is the [TypeError] of an
    undefined centroid or of an empty group. *)
Definition representative (centroids : list (option point))
    (entry : option Z * list Datum) : option Datum :=
  centroid ← centroidOf centroids entry.1;
  first ← head entry.2;
  Some (closest centroid first entry.2).1.

(** One pass of the loop over [sensorsByCluster.entries()]. *)
Definition reduceGroup (centroids : list (option point))
    (st : list string * gmap string nat) (entry : option Z * list Datum)
  : option (list string * gmap string nat) :=
  bestSensor ← representative centroids entry;
  let chosenSensor := sensor bestSensor in
  let hiddenCount := length entry.2 in
  Some (setAdd chosenSensor st.1,
        if decide (1 < hiddenCount)
        then <[chosenSensor := hiddenCount]> st.2 else st.2).

Fixpoint reduceGroups (centroids : list (option point))
    (st : list string * gmap string nat) (entries : groups)
  : option (list string * gmap string nat) :=
  match entries with
  | [] => Some st
  | entry :: rest =>
      st' ← reduceGroup centroids st entry;
      reduceGroups centroids st' rest
  end.

(** From the clusters to the selection result. *)
Definition reduceClusters (dataArray : list Datum) (clusters : list Z)
    (centroids : list (option point)) : option SelectionResult :=
  '(sensorsToKeep, hiddenCounts) ←
    reduceGroups centroids ([], ∅) (groupByCluster dataArray clusters);
  let allSensors := map sensor dataArray in
  Some {| filteredOutSensors := filter (fun s => s ∉ sensorsToKeep) allSensors;
          filteredInSensors := sensorsToKeep;
          hiddenCountsMap := hiddenCounts |}.

(** The selector: its outcome and the [localStorage] it leaves.
    [doDownloadCache] only triggers a download of the stored entry. *)
Definition filterOverlappingRosesKmeans (host : Host)
    (localStorage : gmap string string)
    (dataArray : list Datum) (zoomLevel filterName : string)
    (doClearCache doDownloadCache : bool)
  : outcome * gmap string string :=
  let localStorage :=
    if doClearCache then clearCache filterName localStorage else localStorage in
  match staticFile host (cacheFilePath filterName) with
  | Some cachedData => (Returned cachedData, localStorage)
  | None =>
      let cachedData := localStorage !! cacheKey filterName in
      match cachedData with
      | Some (String c text) =>
          match JSON_parse host (String c text) with
          | Some parsed => (Returned parsed, localStorage)
          | None => (Threw "SyntaxError", localStorage)
          end
      | _ =>
          match dataArray with
          | [] => (Returned (VResult emptyResult), localStorage)
          | _ :: _ =>
              let dataPoints := map (fun d => [latitude d; longitude d]) dataArray in
              match kmeansRun host (numClusters zoomLevel) dataPoints with
              | NoCallBack => (Pending, localStorage)
              | RunThrew => (Threw "Error", localStorage)
              | CalledBack clusters centroids =>
                  match reduceClusters dataArray clusters centroids with
                  | None => (Threw "TypeError", localStorage)
                  | Some result =>
                      (Returned (VResult result),
                       if setItemWorks host
                       then <[cacheKey filterName := JSON_stringify host result]> localStorage
                       else localStorage)
                  end
              end
          end
      end
  end.

End Reduction.

(** The keys are distinct, no group is empty. *)
Definition wellGrouped (gs : groups) : Prop :=
  NoDup gs.*1 /\ forall key g, (key, g) ∈ gs -> g <> [].

(** [localStorage] once [doClearCache] is honoured. *)
Definition afterClear (localStorage : gmap string string) (filterName : string)
    (doClearCache : bool) : gmap string string :=
  if doClearCache then clearCache filterName localStorage else localStorage.

(** Both cache tiers miss for a call: no static file, and no entry (or
    an empty one) in [localStorage] once [doClearCache] is honoured. *)
Definition cacheMiss (host : Host) (localStorage : gmap string string)
    (filterName : string) (doClearCache : bool) : Prop :=
  staticFile host (cacheFilePath filterName) = None
  /\ let stored :=
       (if doClearCache then clearCache filterName localStorage else localStorage)
         !! cacheKey filterName in
     stored = None \/ stored = Some "".

(** The call-back of a run names a defined centroid for every point. *)
Definition wellFormedRun (dataArray : list Datum) (clusters : list Z)
    (centroids : list (option point)) : Prop :=
  forall i, i < length dataArray -> is_Some (centroidOf centroids (clusters !! i)).

End KmeansFilter.

(** ** Sample hosts and inputs *)

Module Samples.

Import JsNum JsMath KMeans KmeansFilter.

(** [Math] functions that are exact where the samples use them:
    [cos 0 = 1], [acos 1 = 0], [pow x 2 = x * x] on small integers. *)
Definition sampleMath : MathLib :=
  {| Math_cos := fun _ => 1%float;
     Math_acos := fun _ => 0%float;
     Math_pow := fun x _ => (x * x)%float |}.

Definition glyph (name : string) (latitude longitude : number) : Datum :=
  {| sensor := name; latitude := latitude; longitude := longitude |}.

(** Two glyphs one degree of longitude apart on the equator. *)
Definition twoGlyphs : list Datum := [glyph "a" 0 0; glyph "b" 0 1].

Definition twoGlyphsResult : SelectionResult :=
  {| filteredOutSensors := ["b"];
     filteredInSensors := ["a"];
     hiddenCountsMap := {[ "a" := 2 ]} |}.

#[global] Instance SelectionResult_eq_dec : EqDecision SelectionResult.
Proof. solve_decision. Defined.

Definition twoGlyphsText : string :=
  "{filteredOutSensors:[b],filteredInSensors:[a],hiddenCountsMap:{a:2}}".

(** A host without static files, whose k-means run ends with every
    point in cluster 0 around (0, 0), and whose JSON functions are given
    on the values of the samples. *)
Definition sampleHost : Host :=
  {| staticFile := fun _ => None;
     setItemWorks := true;
     kmeansRun := fun _ data => CalledBack (map (fun _ => 0%Z) data) [Some [0; 0]%float];
     JSON_stringify := fun r =>
       if decide (r = twoGlyphsResult) then twoGlyphsText else "{}";
     JSON_parse := fun text =>
       if decide (text = twoGlyphsText) then Some (VResult twoGlyphsResult)
       else if decide (text = "{}") then Some (VOther "{}")
       else None |}.

(** An intersection matrix: [a] overlaps [b] (area 2) and [c] (area 3),
    [d] overlaps nothing. *)
Definition starMatrix : Greedy.matrix :=
  {[ "a" := {[ "b" := 2%float; "c" := 3%float ]};
     "b" := {[ "a" := 2%float ]};
     "c" := {[ "a" := 3%float ]};
     "d" := ∅ ]}.

(** [localStorage] after the two glyphs were filtered under the key
    of the name [bef_0]. *)
Definition twoGlyphsStorage : gmap string string :=
  <[cacheKey "bef_0" := twoGlyphsText]> ∅.

End Samples.

(** ** The cache export and the selection set of [ViewParameters] *)

Module CacheExport.

Import KmeansFilter.

(** [downloadCache]: the file name and the content of the download, or
    [None] when it reports that no data is cached for the name. *)
Definition downloadCache (filterName : string) (localStorage : gmap string string)
  : option (string * string) :=
  match localStorage !! cacheKey filterName with
  | Some (String c text) => Some (filterName +:+ "_cache.json", String c text)
  | _ => None
  end.

(** What a call of [filterOverlappingRosesKmeans] downloads: the cache is
    cleared first, then exported. *)
Definition selectorDownload (filterName : string) (localStorage : gmap string string)
    (doClearCache doDownloadCache : bool) : option (string * string) :=
  if doDownloadCache
  then downloadCache filterName (afterClear localStorage filterName doClearCache)
  else None.

End CacheExport.

Module ViewParams.

Import KmeansFilter.

(** [Set.delete] on a set kept in insertion order. *)
Definition setDelete (x : string) (set : list string) : list string :=
  filter (fun y => y <> x) set.

(** [selectSensor]: [selectedSensors] after the call, for the limit
    [selectedSensorsLimit]. *)
Definition selectSensor (selectedSensorsLimit : nat) (selectedSensors : list string)
    (sensor : string) : list string :=
  let toggled :=
    if decide (sensor ∈ selectedSensors) then setDelete sensor selectedSensors
    else setAdd sensor selectedSensors in
  if decide (selectedSensorsLimit < length toggled) then
    match toggled with
    | firstSensor :: _ => setDelete firstSensor toggled
    | [] => toggled
    end
  else toggled.

End ViewParams.

(** ** The loader of the averaged data *)

Module DataLoader.

Import JsNum.

(** An element of [location]: its [lat] and [long] fields. *)
Record Location := {
  lat : option number;
  long : option number
}.

(** A value of the loaded JSON object: whether [presence] is truthy, and
    [location] ([None] when the field is missing). *)
Record SensorJson := {
  presence : bool;
  location : option (list Location)
}.

(** The record built for a sensor; [None] is the [TypeError] of reading
    [location[0]] on a missing [location].  A coordinate that is falsy
    becomes [null], which the filters read as [0]. *)
Definition recordsOf (sensorName : string) (sensorData : SensorJson)
  : option (list Datum) :=
  if presence sensorData then
    locations ← location sensorData;
    let first := head locations in
    Some [ {| sensor := sensorName;
              latitude := or_zero (first ≫= lat);
              longitude := or_zero (first ≫= long) |} ]
  else Some [].

(** [loadDataAVG] once the file is parsed: [jsonData] lists the entries of
    the object in the order of [Object.keys]; an exception is caught and
    gives the empty array. *)
Definition processDataAVG (jsonData : list (string * SensorJson)) : list Datum :=
  default [] (chunks ← mapM (fun '(sensorName, sensorData) =>
                               recordsOf sensorName sensorData) jsonData;
              Some (concat chunks)).

End DataLoader.

(** ** The check for empty clusters after a classification pass *)

Module EmptyClusters.

Import JsNum JsMath KMeans.

Record checkState := {
  classified : list Z;
  centroids : list (option point);
  emptyClusters : bool;
  draws : list number
}.

Section Check.
Context `{MathLib}.

(** One pass of the loop, for cluster [i]; [None] is an exception of
    [reInitCentroid] (or the end of the draws). *)
Definition checkCluster (data : list point) (st : checkState) (i : nat)
  : option checkState :=
  if decide (Z.of_nat i ∈ classified st) then Some st
  else
    '(c, rest) ← reInitCentroid data (centroids st) (draws st);
    Some {| classified := [];
            centroids := <[i := c]> (centroids st);
            emptyClusters := true;
            draws := rest |}.

Fixpoint checkFrom (data : list point) (indices : list nat) (st : checkState)
  : option checkState :=
  match indices with
  | [] => Some st
  | i :: rest => st' ← checkCluster data st i; checkFrom data rest st'
  end.

(** The loop [for (let i = 0; i < centroids.length; i++)] that follows
    [combineData]. *)
Definition checkEmptyClusters (data : list point) (classified_data : list Z)
    (centroids : list (option point)) (draws : list number) : option checkState :=
  checkFrom data (seq 0 (length centroids))
    {| classified := classified_data; centroids := centroids;
       emptyClusters := false; draws := draws |}.

End Check.

End EmptyClusters.

(** ** Notions used to state further properties of the greedy selector *)

Module GreedyNotions.

Import JsNum Greedy.




(** The working list is the input list filtered by value. *)
Definition valueFiltered (ids sel w : list string) : Prop :=
  w = filter (fun s => s ∈ w) ids.

End GreedyNotions.

(** ** More samples *)

Module MoreSamples.

Import JsNum Samples.

(** Two glyphs at the same place and a third one a degree away. *)
Definition stackedGlyphs : list Datum :=
  [glyph "a" 0 0; glyph "b" 0 0; glyph "c" 0 1].

(** Two points and a centroid on each of them. *)
Definition twoPoints : list KMeans.point := [[0; 0]; [10; 10]]%float.
Definition twoCentroids : list (option KMeans.point) :=
  [Some [0; 0]; Some [10; 10]]%float.

(** Two points at distance 5, with both centroids on the first one. *)
Definition seedPoints : list KMeans.point := [[0; 0]; [3; 4]]%float.
Definition stackedCentroids : list (option KMeans.point) :=
  [Some [0; 0]; Some [0; 0]]%float.

(** A loaded file with a present sensor and an absent one, and a file
    whose present sensor has no [location]. *)
Definition sampleJson : list (string * DataLoader.SensorJson) :=
  [("a", {| DataLoader.presence := true;
            DataLoader.location :=
              Some [ {| DataLoader.lat := Some 1%float;
                        DataLoader.long := Some 2%float |} ] |});
   ("b", {| DataLoader.presence := false; DataLoader.location := None |})].

Definition brokenJson : list (string * DataLoader.SensorJson) :=
  [("a", {| DataLoader.presence := true; DataLoader.location := None |})].

End MoreSamples.


(** ** Order facts on binary64 values, from the IEEE specification *)

Module FloatOrder.

Import JsNum.

Ltac sf_cases :=
  repeat match goal with
  | |- context [Pos.compare_cont Eq ?a ?b] =>
      change (Pos.compare_cont Eq a b) with (Pos.compare a b)
  | H : context [Pos.compare_cont Eq ?a ?b] |- _ =>
      change (Pos.compare_cont Eq a b) with (Pos.compare a b) in H
  end;
  repeat match goal with
  | H : context [Z.compare ?a ?b] |- _ =>
      destruct (Z.compare_spec a b); simpl in H; try discriminate H
  | H : context [Pos.compare ?a ?b] |- _ =>
      destruct (Pos.compare_spec a b); simpl in H; try discriminate H
  | |- context [Z.compare ?a ?b] =>
      destruct (Z.compare_spec a b); simpl; try reflexivity
  | |- context [Pos.compare ?a ?b] =>
      destruct (Pos.compare_spec a b); simpl; try reflexivity
  end;
  subst; try reflexivity; try discriminate; try lia.

Ltac sf_destruct x :=
  destruct x as [[|]|[|]| |[|] ? ?].

Lemma SFltb_irrefl (x : spec_float) : SFltb x x = false.
Proof.
  unfold SFltb, SFcompare. sf_destruct x; simpl; try reflexivity.
  - rewrite Z.compare_refl.
    change (Pos.compare_cont Eq m m) with (Pos.compare m m).
    now rewrite Pos.compare_refl.
  - rewrite Z.compare_refl.
    change (Pos.compare_cont Eq m m) with (Pos.compare m m).
    now rewrite Pos.compare_refl.
Qed.


(** If [d < m] and not [x < m] then not [x < d]. *)
Lemma SFltb_below (d m x : spec_float) :
  SFltb d m = true -> SFltb x m = false -> SFltb x d = false.
Proof.
  unfold SFltb, SFcompare.
  sf_destruct d; sf_destruct m; simpl; try discriminate;
    sf_destruct x; simpl; try discriminate; try reflexivity;
    intros H1 H2; sf_cases.
Qed.



Lemma lt_irrefl (x : number) : lt x x = false.
Proof. unfold lt. rewrite ltb_spec. apply SFltb_irrefl. Qed.



(** A new minimum is below whatever the old minimum was below. *)
Lemma lt_new_min (d m x : number) :
  lt d m = true -> lt x m = false -> lt x d = false.
Proof.
  unfold lt. rewrite !ltb_spec. apply SFltb_below.
Qed.

(** Nothing is above [Infinity]: what is not below it is below nothing. *)
Lemma lt_infinity_top (x y : number) :
  lt x PrimFloat.infinity = false -> lt x y = false.
Proof.
  unfold lt. rewrite !ltb_spec.
  change (Prim2SF PrimFloat.infinity) with (S754_infinity false).
  unfold SFltb, SFcompare.
  destruct (Prim2SF x) as [[|]|[|]| |[|] ? ?]; simpl; try discriminate;
    destruct (Prim2SF y) as [[|]|[|]| |[|] ? ?]; reflexivity.
Qed.

(** A number above [0] is truthy. *)
Lemma gt_zero_truthy (x : number) : gt x 0%float = true -> truthy x = true.
Proof.
  unfold gt, truthy, is_nan. rewrite ltb_spec, !FloatAxioms.eqb_spec.
  change (Prim2SF 0%float) with (S754_zero false).
  destruct (Prim2SF x) as [[|]|[|]| |[|] ? ?]; simpl; try discriminate; try reflexivity.
  intros _. unfold SFeqb, SFcompare. rewrite Z.compare_refl.
  change (Pos.compare_cont Eq m m) with (Pos.compare m m).
  now rewrite Pos.compare_refl.
Qed.

End FloatOrder.

(** ** Generic facts on folds *)

Module FoldFacts.

Lemma foldl_inv {A B} (f : A -> B -> A) (Q : A -> Prop) (l : list B) (a : A) :
  Q a -> (forall a x, x ∈ l -> Q a -> Q (f a x)) -> Q (foldl f a l).
Proof.
  revert a. induction l as [|x l IH]; intros a Ha Hstep; simpl; [exact Ha|].
  apply IH.
  - apply Hstep; [left | exact Ha].
  - intros a' y Hy. apply Hstep. now right.
Qed.

Lemma foldl_insert_lookup {V} (g : string -> V) (l : list string)
    (T0 : gmap string V) (s : string) :
  foldl (fun T x => <[x := g x]> T) T0 l !! s
  = if decide (s ∈ l) then Some (g s) else T0 !! s.
Proof.
  revert T0. induction l as [|x l IH]; intros T0; simpl.
  - reflexivity.
  - rewrite IH. destruct (decide (s ∈ l)) as [Hin|Hin].
    + rewrite decide_True; [done | now right].
    + destruct (decide (s = x)) as [->|Hne].
      * rewrite lookup_insert_eq, decide_True; [done | left].
      * rewrite lookup_insert_ne by done.
        rewrite decide_False; [done|].
        intros [?|?]%elem_of_cons; contradiction.
Qed.

End FoldFacts.

(** ** The greedy loop *)

Module GreedyLoop.

Import JsNum Greedy FloatOrder FoldFacts.

Lemma truthy_or (v w : option number) :
  truthy_opt (or v w) = truthy_opt v || truthy_opt w.
Proof. unfold or. destruct (truthy_opt v) eqn:E; simpl; [exact E | reflexivity]. Qed.

Lemma overlaps_sym (M : matrix) (a b : string) : overlaps M a b = overlaps M b a.
Proof. unfold overlaps. rewrite !truthy_or. apply orb_comm. Qed.

Lemma or_zero_falsy (v : option number) : truthy_opt v = false -> or_zero v = 0%float.
Proof. destruct v as [x|]; simpl; [intros ->|]; reflexivity. Qed.

Lemma totalFor_zero (M : matrix) (w : list string) (s : string) :
  (forall o, o ∈ w -> o <> s -> truthy_opt (cell M s o) = false) ->
  totalFor M w s = 0%float.
Proof.
  intros Hall. unfold totalFor.
  apply (foldl_inv _ (fun acc => acc = 0%float)); [reflexivity|].
  intros acc o Ho ->. destruct (decide (s <> o)) as [Hne|_]; [|reflexivity].
  rewrite or_zero_falsy; [reflexivity|]. apply Hall; [exact Ho | congruence].
Qed.

Lemma totalIntersectionArea_lookup (M : matrix) (w : list string) (s : string) :
  s ∈ w -> totalIntersectionArea M w !! s = Some (totalFor M w s).
Proof.
  intros Hin. unfold totalIntersectionArea.
  rewrite (foldl_insert_lookup (totalFor M w)). now rewrite decide_True.
Qed.

Lemma pickMax_spec (T : gmap string number) (w : list string) m a :
  pickMax T w = (Some m, a) -> m ∈ w /\ T !! m = Some a.
Proof.
  unfold pickMax.
  set (Q := fun st : option string * number =>
              forall m a, st = (Some m, a) -> m ∈ w /\ T !! m = Some a).
  assert (HQ : Q (foldl (fun '(maxSensor, maxArea) s =>
           match T !! s with
           | Some t => if gt t maxArea then (Some s, t) else (maxSensor, maxArea)
           | None => (maxSensor, maxArea)
           end) (None, (-1)%float) w)).
  { apply foldl_inv.
    - intros ? ? [=].
    - intros [ms ma] s Hs HQ m' a'. destruct (T !! s) as [t|] eqn:Ets; [|apply HQ].
      destruct (gt t ma); [|apply HQ].
      intros [= <- <-]. split; [exact Hs | exact Ets]. }
  intros E. apply HQ. exact E.
Qed.

(** When the loop goes on, [maxSensor] is in the list and has a truthy
    stored area with another sensor of the list. *)
Lemma pickOrBreak_Some (M : matrix) (w : list string) (m : string) :
  pickOrBreak M w = Some m ->
  m ∈ w /\ exists o, o ∈ w /\ o <> m /\ truthy_opt (cell M m o) = true.
Proof.
  unfold pickOrBreak. destruct w as [|x w']; [discriminate|].
  set (w := x :: w').
  destruct (pickMax (totalIntersectionArea M w) w) as [[m'|] a] eqn:Epick; [|discriminate].
  destruct (negb (truthy_str m') || strict_eq a 0) eqn:Ebrk; [discriminate|].
  intros [= ->]. apply pickMax_spec in Epick as [Hin Hlk].
  split; [exact Hin|].
  rewrite totalIntersectionArea_lookup in Hlk by exact Hin. injection Hlk as <-.
  apply orb_false_elim in Ebrk as [_ Hne0].
  destruct (decide (Exists (fun o => o <> m /\ truthy_opt (cell M m o) = true) w))
    as [Hex|Hno].
  - apply Exists_exists in Hex as (o & Ho & Hne & Ht). eauto.
  - exfalso. rewrite totalFor_zero in Hne0; [discriminate Hne0|].
    intros o Ho Hne. destruct (truthy_opt (cell M m o)) eqn:Et; [|reflexivity].
    exfalso. apply Hno, Exists_exists. eauto.
Qed.

Lemma removeOverlapping_elem (M : matrix) (m : string) (w : list string) s :
  s ∈ removeOverlapping M m w <-> s ∈ w /\ (s = m \/ overlaps M m s = false).
Proof.
  unfold removeOverlapping. rewrite list_elem_of_filter.
  destruct (overlaps M m s); simpl; split; intros [H1 H2]; split; try done.
  - destruct H1 as [?|Hn]; [now left | exfalso; now apply Hn].
  - destruct H2 as [?|?]; [now left | discriminate].
  - destruct H1 as [?|?]; [now left | now right].
  - destruct H2 as [?|?]; [now left | right; tauto].
Qed.

Lemma removeOverlapping_shrinks (M : matrix) (w : list string) (m : string) :
  pickOrBreak M w = Some m ->
  length (removeOverlapping M m w) < length w.
Proof.
  intros (Hin & o & Ho & Hne & Ht)%pickOrBreak_Some.
  unfold removeOverlapping. apply (length_filter_lt _ _ o); [exact Ho|].
  assert (Hov : overlaps M m o = true).
  { unfold overlaps. rewrite truthy_or, Ht. reflexivity. }
  rewrite Hov. simpl. tauto.
Qed.

(** The loop ends within [length filteredIn + 1] passes, in a state
    reached by the passes and where the body stops; an invariant of the
    passes holds there. *)
Lemma greedyLoop_runs (M : matrix) (Inv : list string -> list string -> Prop) :
  (forall sel w m, Inv sel w -> pickOrBreak M w = Some m ->
                   Inv (sel ++ [m]) (removeOverlapping M m w)) ->
  forall fuel w sel,
    length w < fuel -> Inv sel w ->
    exists sel' w',
      greedyLoop fuel M w sel = Some (sel', w')
      /\ loopReach M (sel, w) (sel', w')
      /\ pickOrBreak M w' = None
      /\ Inv sel' w'.
Proof.
  intros Hstep. induction fuel as [|fuel IH]; intros w sel Hlen Hinv; [lia|].
  simpl. destruct (pickOrBreak M w) as [m|] eqn:Epick.
  - destruct (IH (removeOverlapping M m w) (sel ++ [m])) as (sel' & w' & E & R & P & I).
    + pose proof (removeOverlapping_shrinks M w m Epick). lia.
    + now apply Hstep.
    + exists sel', w'. split; [exact E|]. split; [|now split].
      eapply reach_next; eassumption.
  - exists sel, w. repeat split; [constructor | exact Epick | exact Hinv].
Qed.

Lemma loopReach_inv (M : matrix) (Inv : list string -> list string -> Prop) :
  (forall sel w m, Inv sel w -> pickOrBreak M w = Some m ->
                   Inv (sel ++ [m]) (removeOverlapping M m w)) ->
  forall st st', loopReach M st st' -> Inv st.1 st.2 -> Inv st'.1 st'.2.
Proof.
  intros Hstep st st' R. induction R as [st|sel w m st' Epick R IH]; [done|].
  simpl. intros Hinv. apply IH. simpl. now apply Hstep.
Qed.

Lemma pickedKept_step (M : matrix) sel w m :
  pickedKept M sel w -> pickOrBreak M w = Some m ->
  pickedKept M (sel ++ [m]) (removeOverlapping M m w).
Proof.
  intros Hinv Epick p Hp. apply pickOrBreak_Some in Epick as [Hm _].
  apply elem_of_app in Hp as [Hp|Hp].
  - destruct (Hinv p Hp) as [Hpw Hno]. split.
    + apply removeOverlapping_elem. split; [exact Hpw|].
      destruct (Hno m Hm) as [->|Hf]; [now left|].
      right. now rewrite overlaps_sym.
    + intros s [Hs _]%removeOverlapping_elem. now apply Hno.
  - apply list_elem_of_singleton in Hp as ->. split.
    + apply removeOverlapping_elem. split; [exact Hm | now left].
    + intros s [_ [->|Hs]]%removeOverlapping_elem; [now left | now right].
Qed.

Lemma within_step (M : matrix) ids sel w m :
  within ids sel w -> pickOrBreak M w = Some m ->
  within ids (sel ++ [m]) (removeOverlapping M m w).
Proof. intros Hinv _ s [Hs _]%removeOverlapping_elem. now apply Hinv. Qed.

(** On the star matrix the loop picks [a], removes [b] and [c], and stops
    at its second pass, wherever [a] stands in the list. *)
Example greedyLoop_star :
  greedyLoop 5 Samples.starMatrix ["a"; "b"; "c"; "d"] [] = Some (["a"], ["a"; "d"])
  /\ greedyLoop 5 Samples.starMatrix ["b"; "c"; "d"; "a"] [] = Some (["a"], ["d"; "a"]).
Proof. vm_compute. split; reflexivity. Qed.

End GreedyLoop.

(** ** The greedy selector as a whole *)

Module GreedyFacts.

Import JsNum Greedy FloatOrder FoldFacts GreedyLoop.

Lemma filter_all {A} (P : A -> Prop) `{!forall x, Decision (P x)} (l : list A) :
  (forall x, x ∈ l -> P x) -> filter P l = l.
Proof.
  induction l as [|x l IH]; intros Hall; [reflexivity|].
  rewrite filter_cons_True by (apply Hall; left).
  f_equal. apply IH. intros y Hy. apply Hall. now right.
Qed.


Lemma countHidden_empty : countHidden ∅ = ∅.
Proof. unfold countHidden. apply map_fold_empty. Qed.

Lemma addSelf_empty : addSelf ∅ = ∅.
Proof. unfold addSelf. apply fmap_empty. Qed.

Lemma hiddenToBestVisible_no_hidden (M : matrix) (visibles : list string) :
  hiddenToBestVisible M visibles [] = ∅.
Proof.
  unfold hiddenToBestVisible.
  apply (foldl_inv _ (fun hb => hb = ∅)); [reflexivity|]. now intros hb v _ ->.
Qed.

Section WithMath.
Context `{MathLib}.

Lemma sensorBounds_ids (dataArray : list Datum) (r : number) :
  map bsensor (sensorBounds dataArray r) = map sensor dataArray.
Proof. unfold sensorBounds. rewrite map_map. reflexivity. Qed.

(** The selector always returns: the loop ends, in a state where its
    body stops, and the result is assembled from that state. *)
Lemma greedy_run (Inv : list string -> list string -> Prop)
    (dataArray : list Datum) (r : number) (cur : option (list string)) :
  let M := buildIntersectMatrix (sensorBounds dataArray r) in
  let start := initialFilteredIn M (map sensor dataArray) cur in
  (forall sel w m, Inv sel w -> pickOrBreak M w = Some m ->
                   Inv (sel ++ [m]) (removeOverlapping M m w)) ->
  Inv [] start ->
  exists sel final,
    greedySelect dataArray r cur = (M, Some (sel, final))
    /\ loopReach M ([], start) (sel, final)
    /\ pickOrBreak M final = None
    /\ Inv sel final
    /\ filterOverlappingRosesGreedy dataArray r cur
       = Some (resultOf M (map sensor dataArray) final).
Proof.
  intros M start Hstep Hinv.
  destruct (greedyLoop_runs M Inv Hstep (S (length start)) start [])
    as (sel & final & Eloop & Hreach & Hstop & Hfin); [lia | exact Hinv |].
  exists sel, final.
  assert (Esel : greedySelect dataArray r cur = (M, Some (sel, final))).
  { unfold greedySelect. rewrite sensorBounds_ids. fold M. fold start.
    now rewrite Eloop. }
  split; [exact Esel|]. split; [exact Hreach|]. split; [exact Hstop|].
  split; [exact Hfin|].
  unfold filterOverlappingRosesGreedy. rewrite Esel.
  destruct dataArray as [|d rest].
  - subst start. simpl in *. destruct cur; simpl in Eloop; injection Eloop as <- <-;
      unfold resultOf; simpl; rewrite hiddenToBestVisible_no_hidden,
        countHidden_empty, addSelf_empty; reflexivity.
  - rewrite sensorBounds_ids. reflexivity.
Qed.

(** *** No overlap at all *)



End WithMath.





End GreedyFacts.

(** ** The attribution of hidden sensors (step 4 of the greedy selector) *)

Module HiddenCounts.

Import JsNum Greedy FloatOrder FoldFacts.







(** *** Counting *)






(** On the star matrix both hidden sensors go to [a], whose entry is 3. *)
Example hiddenCounts_star :
  addSelf (countHidden (hiddenToBestVisible Samples.starMatrix ["a"; "d"] ["b"; "c"]))
  = {[ "a" := 3 ]}.
Proof. vm_compute. reflexivity. Qed.

End HiddenCounts.

(** ** The reduction of clusters to a selection result *)

Module ReductionFacts.

Import JsNum JsMath KMeans KmeansFilter FloatOrder FoldFacts.

Lemma imap_pair_snd {A} (l : list A) : (imap pair l).*2 = l.
Proof.
  apply list_eq. intros i. rewrite list_lookup_fmap, list_lookup_imap.
  now destruct (l !! i).
Qed.

Lemma elem_of_concat {A} (x : A) (ls : list (list A)) :
  x ∈ concat ls <-> exists l, x ∈ l /\ l ∈ ls.
Proof.
  induction ls as [|l0 ls IH]; simpl.
  - split; [intros Hx; now apply elem_of_nil in Hx|].
    intros (l & _ & Hl). now apply elem_of_nil in Hl.
  - rewrite elem_of_app, IH. split.
    + intros [Hx|(l & Hx & Hl)]; [exists l0; split; [exact Hx | left]|].
      exists l. split; [exact Hx | now right].
    + intros (l & Hx & [->|Hl]%elem_of_cons); [now left | right; eauto].
Qed.

(** *** Grouping *)

Lemma pushToGroup_absent (key : option Z) (d : Datum) (gs : groups) :
  key ∉ gs.*1 ->
  map (fun '(k, g) => if decide (k = key) then (k, g ++ [d]) else (k, g)) gs = gs.
Proof.
  induction gs as [|[k g] gs IH]; intros Hnot; [reflexivity|].
  simpl. rewrite decide_False.
  - f_equal. apply IH. intros Hin. apply Hnot. now right.
  - intros ->. apply Hnot. left.
Qed.

Lemma pushToGroup_members (key : option Z) (d : Datum) (gs : groups) :
  NoDup gs.*1 -> concat (pushToGroup key d gs).*2 ≡ₚ d :: concat gs.*2.
Proof.
  unfold pushToGroup. destruct (decide (key ∈ gs.*1)) as [Hin|Hnot].
  - induction gs as [|[k g] gs IH]; intros Hnd; [now apply elem_of_nil in Hin|].
    apply NoDup_cons in Hnd as [Hk Hnd]. simpl.
    destruct (decide (k = key)) as [->|Hne].
    + rewrite pushToGroup_absent by exact Hk. simpl.
      rewrite <- app_assoc. simpl.
      now rewrite <- Permutation_middle.
    + simpl. rewrite IH.
      * now rewrite <- Permutation_middle.
      * simpl in Hin. apply elem_of_cons in Hin as [?|?]; [congruence | assumption].
      * exact Hnd.
  - intros _. rewrite fmap_app, concat_app. simpl.
    now rewrite <- Permutation_cons_append.
Qed.

Lemma pushToGroup_wellGrouped (key : option Z) (d : Datum) (gs : groups) :
  wellGrouped gs -> wellGrouped (pushToGroup key d gs).
Proof.
  intros [Hnd Hne]. unfold pushToGroup.
  destruct (decide (key ∈ gs.*1)) as [Hin|Hnot].
  - split.
    + assert (E : (map (fun '(k, g) => if decide (k = key) then (k, g ++ [d]) else (k, g)) gs).*1
                  = gs.*1).
      { clear. induction gs as [|[k g] gs IH]; [reflexivity|].
        cbn. rewrite IH. now destruct (decide (k = key)). }
      now rewrite E.
    + intros k g Hkg. apply list_elem_of_fmap in Hkg as ([k' g'] & E & Hin').
      destruct (decide (k' = key)); injection E as -> ->.
      * now destruct g'.
      * eapply Hne; eassumption.
  - split.
    + rewrite fmap_app. simpl. apply NoDup_app. split; [exact Hnd|]. split.
      * intros x Hx ->%list_elem_of_singleton. contradiction.
      * apply NoDup_singleton.
    + intros k g [Hkg|Hkg%list_elem_of_singleton]%elem_of_app.
      * eapply Hne; eassumption.
      * now injection Hkg as -> ->.
Qed.

Lemma groupByCluster_spec (dataArray : list Datum) (clusters : list Z) :
  wellGrouped (groupByCluster dataArray clusters)
  /\ concat (groupByCluster dataArray clusters).*2 ≡ₚ dataArray.
Proof.
  unfold groupByCluster.
  rewrite <- (imap_pair_snd dataArray) at 3.
  generalize (imap pair dataArray). intros l.
  assert (Hgen : forall gs0 : groups, wellGrouped gs0 ->
            let gs := foldl (fun gs '(index, d) => pushToGroup (clusters !! index) d gs) gs0 l in
            wellGrouped gs /\ concat gs.*2 ≡ₚ concat gs0.*2 ++ l.*2).
  { induction l as [|[i d] l IH]; intros gs0 Hwg; simpl.
    - split; [exact Hwg | now rewrite app_nil_r].
    - destruct (IH (pushToGroup (clusters !! i) d gs0)) as [Hwg' Hperm].
      + now apply pushToGroup_wellGrouped.
      + split; [exact Hwg'|]. rewrite Hperm.
        rewrite pushToGroup_members by apply Hwg.
        now rewrite <- Permutation_middle. }
  destruct (Hgen []) as [Hwg Hperm].
  - split; [constructor | intros k g Hin; now apply elem_of_nil in Hin].
  - split; [exact Hwg | exact Hperm].
Qed.

Lemma setAdd_elem (x : string) (set : list string) (s : string) :
  s ∈ setAdd x set <-> s = x \/ s ∈ set.
Proof.
  unfold setAdd. destruct (decide (x ∈ set)) as [Hin|Hnot].
  - split; [now right | intros [->|?]; assumption].
  - rewrite elem_of_app, list_elem_of_singleton. tauto.
Qed.

Section WithMath.
Context `{MathLib}.

(** *** The representative of a group *)

Lemma closest_spec (centroid : point) (first : Datum) (sensorGroup : list Datum) :
  let res := closest centroid first sensorGroup in
  (res.1 = first \/ res.1 ∈ sensorGroup)
  /\ forall s, s ∈ sensorGroup ->
               lt (distanceTo centroid s) (distanceTo centroid res.1) = false.
Proof.
  unfold closest.
  set (step := fun '(bestSensor, minDistance) sensor =>
           let distance := distanceTo centroid sensor in
           if lt distance minDistance then (sensor, distance)
           else (bestSensor, minDistance)).
  assert (Hgen : forall l (init : Datum * number),
             let res := foldl step init l in
             (res.1 = init.1 /\ res.2 = init.2 \/ res.1 ∈ l /\ res.2 = distanceTo centroid res.1)
             /\ (forall s, s ∈ l -> lt (distanceTo centroid s) res.2 = false)
             /\ (forall x, lt x init.2 = false -> lt x res.2 = false)).
  { induction l as [|s l IH]; intros [b m]; simpl.
    - split; [now left|]. split; [|done]. intros s Hs. now apply elem_of_nil in Hs.
    - destruct (lt (distanceTo centroid s) m) eqn:Elt.
      + destruct (IH (s, distanceTo centroid s)) as (Hwho & Hall & Hmono). simpl in *.
        split; [|split].
        * right. destruct Hwho as [[-> ->]|[Hin ->]]; (split; [|reflexivity]);
            [left | now right].
        * intros s' [->|Hs']%elem_of_cons; [|now apply Hall].
          apply Hmono, lt_irrefl.
        * intros x Hx. apply Hmono. eapply lt_new_min; eassumption.
      + destruct (IH (b, m)) as (Hwho & Hall & Hmono). simpl in *.
        split; [|split].
        * destruct Hwho as [[-> ->]|[Hin ->]]; [now left | right; split; [now right | reflexivity]].
        * intros s' [->|Hs']%elem_of_cons; [|now apply Hall].
          now apply Hmono.
        * exact Hmono. }
  destruct (Hgen sensorGroup (first, PrimFloat.infinity)) as (Hwho & Hall & _).
  simpl in *. split.
  - destruct Hwho as [[-> _]|[Hin _]]; [now left | now right].
  - intros s Hs. destruct Hwho as [[_ E]|[_ E]].
    + apply lt_infinity_top. rewrite <- E. now apply Hall.
    + rewrite <- E. now apply Hall.
Qed.

(** The representative is a member of its group, and no member is
    closer to the centroid. *)
Lemma representative_spec (centroids : list (option point))
    (entry : option Z * list Datum) (rep : Datum) :
  representative centroids entry = Some rep ->
  exists centroid,
    centroidOf centroids entry.1 = Some centroid
    /\ rep ∈ entry.2
    /\ forall s, s ∈ entry.2 ->
                 lt (distanceTo centroid s) (distanceTo centroid rep) = false.
Proof.
  unfold representative.
  destruct (centroidOf centroids entry.1) as [centroid|]; [|discriminate].
  destruct entry.2 as [|first rest] eqn:Eg; [discriminate|].
  simpl. intros [= <-]. exists centroid. split; [reflexivity|].
  destruct (closest_spec centroid first (first :: rest)) as [Hin Hmin].
  split; [|exact Hmin].
  destruct Hin as [->|Hin]; [left | exact Hin].
Qed.

Lemma representative_defined (centroids : list (option point))
    (entry : option Z * list Datum) :
  is_Some (centroidOf centroids entry.1) -> entry.2 <> [] ->
  is_Some (representative centroids entry).
Proof.
  intros [c Ec] Hne. unfold representative. rewrite Ec.
  destruct entry.2; [contradiction | now eexists].
Qed.

(** *** The loop over the groups *)

(** The loop ends without exception when every group has a centroid. *)
Lemma reduceGroups_defined (centroids : list (option point)) (entries : groups) st :
  (forall entry, entry ∈ entries ->
                 is_Some (centroidOf centroids entry.1) /\ entry.2 <> []) ->
  is_Some (reduceGroups centroids st entries).
Proof.
  revert st. induction entries as [|e rest IH]; intros st Hall; [now eexists|].
  simpl. unfold reduceGroup.
  destruct (representative_defined centroids e) as [rep ->]; try apply Hall; [left..|].
  simpl. apply IH. intros e' He'. apply Hall. now right.
Qed.

(** The sensors kept are those kept before and the representatives. *)
Lemma reduceGroups_keep (centroids : list (option point)) (entries : groups) st st' :
  reduceGroups centroids st entries = Some st' ->
  forall s, s ∈ st'.1 <->
            s ∈ st.1 \/ exists entry rep, entry ∈ entries
                               /\ representative centroids entry = Some rep
                               /\ s = sensor rep.
Proof.
  revert st. induction entries as [|e rest IH]; intros st; simpl.
  - intros [= <-] s. split; [now left|]. intros [?|(e & _ & He & _)]; [done|].
    now apply elem_of_nil in He.
  - unfold reduceGroup at 1.
    destruct (representative centroids e) as [rep|] eqn:Erep; [|discriminate].
    simpl. intros E s. rewrite (IH _ E). simpl. rewrite setAdd_elem. split.
    + intros [[->|?]|(e' & rep' & He' & Hr & ->)].
      * right. exists e, rep. split; [left | now split].
      * now left.
      * right. exists e', rep'. split; [now right | now split].
    + intros [?|(e' & rep' & He' & Hr & ->)]; [left; now right|].
      apply elem_of_cons in He' as [->|He'].
      * left. left. congruence.
      * right. eauto.
Qed.



(** *** The reduction as a whole *)

Lemma pushToGroup_keys (key : option Z) (d : Datum) (gs : groups) k :
  k ∈ (pushToGroup key d gs).*1 -> k = key \/ k ∈ gs.*1.
Proof.
  unfold pushToGroup. destruct (decide (key ∈ gs.*1)) as [Hin|Hnot].
  - intros Hk. right.
    apply list_elem_of_fmap in Hk as ([k' g'] & -> & Hin').
    apply list_elem_of_fmap in Hin' as ([k0 g0] & E & Hin0).
    apply list_elem_of_fmap. exists (k0, g0). split; [|exact Hin0].
    destruct (decide (k0 = key)); injection E as E1 _; now subst.
  - rewrite fmap_app. simpl.
    intros [Hk | Hk%list_elem_of_singleton]%elem_of_app; [now right | now left].
Qed.

Lemma groupByCluster_keys (dataArray : list Datum) (clusters : list Z) key :
  key ∈ (groupByCluster dataArray clusters).*1 ->
  exists i, i < length dataArray /\ key = clusters !! i.
Proof.
  unfold groupByCluster. revert key.
  apply (foldl_inv _ (fun gs : groups =>
           forall key, key ∈ gs.*1 ->
                       exists i, i < length dataArray /\ key = clusters !! i)).
  - intros key Hk. now apply elem_of_nil in Hk.
  - intros gs [i d] Hid IH key Hk.
    apply elem_of_lookup_imap in Hid as (i' & d' & [= -> ->] & Hlk).
    apply pushToGroup_keys in Hk as [->|Hk]; [|now apply IH].
    exists i'. split; [|reflexivity]. eapply lookup_lt_Some; eassumption.
Qed.

Lemma reduceClusters_defined (dataArray : list Datum) (clusters : list Z)
    (centroids : list (option point)) :
  wellFormedRun dataArray clusters centroids ->
  is_Some (reduceClusters dataArray clusters centroids).
Proof.
  intros Hwf. unfold reduceClusters.
  destruct (groupByCluster_spec dataArray clusters) as [[_ Hne] _].
  destruct (reduceGroups_defined centroids (groupByCluster dataArray clusters) ([], ∅))
    as [[keep counts] ->]; [|now eexists].
  intros [key g] He. split.
  - destruct (groupByCluster_keys dataArray clusters key) as (i & Hi & ->).
    + apply list_elem_of_fmap. exists (key, g). now split.
    + now apply Hwf.
  - eapply Hne; eassumption.
Qed.

Lemma reduceClusters_result (dataArray : list Datum) (clusters : list Z)
    (centroids : list (option point)) (r : SelectionResult) :
  reduceClusters dataArray clusters centroids = Some r ->
  exists st,
    reduceGroups centroids ([], ∅) (groupByCluster dataArray clusters) = Some st
    /\ filteredInSensors r = st.1
    /\ hiddenCountsMap r = st.2
    /\ filteredOutSensors r = filter (fun s => s ∉ st.1) (map sensor dataArray).
Proof.
  unfold reduceClusters.
  destruct (reduceGroups _ _ _) as [[keep counts]|]; [|discriminate].
  simpl. intros [= <-]. now exists (keep, counts).
Qed.

Lemma reduceClusters_partitions (dataArray : list Datum) (clusters : list Z)
    (centroids : list (option point)) (r : SelectionResult) :
  reduceClusters dataArray clusters centroids = Some r ->
  partitions (map sensor dataArray) r.
Proof.
  intros (st & Est & Ein & _ & Eout)%reduceClusters_result.
  unfold partitions. rewrite Ein, Eout. split.
  - intros s. rewrite list_elem_of_filter. split.
    + intros Hs. destruct (decide (s ∈ st.1)); [now left | now right].
    + intros [Hs|[_ Hs]]; [|exact Hs].
      apply (reduceGroups_keep _ _ _ _ Est) in Hs
        as [Hs|(entry & rep & He & Hrep & ->)]; [now apply elem_of_nil in Hs|].
      apply representative_spec in Hrep as (_ & _ & Hin & _).
      apply list_elem_of_fmap. exists rep. split; [reflexivity|].
      destruct (groupByCluster_spec dataArray clusters) as [_ Hperm].
      rewrite <- Hperm. apply elem_of_concat. exists entry.2. split; [exact Hin|].
      apply list_elem_of_fmap. eauto.
  - intros s [Hin [Hnot _]%list_elem_of_filter]. contradiction.
Qed.

(** *** The selector on a cache miss *)

Lemma kmeans_on_miss (host : Host) (localStorage : gmap string string)
    (dataArray : list Datum) (zoomLevel filterName : string)
    (doClearCache doDownloadCache : bool) :
  cacheMiss host localStorage filterName doClearCache ->
  filterOverlappingRosesKmeans host localStorage dataArray zoomLevel filterName
    doClearCache doDownloadCache
  = let localStorage := afterClear localStorage filterName doClearCache in
    match dataArray with
    | [] => (Returned (VResult emptyResult), localStorage)
    | _ :: _ =>
        match kmeansRun host (numClusters zoomLevel)
                (map (fun d => [latitude d; longitude d]) dataArray) with
        | NoCallBack => (Pending, localStorage)
        | RunThrew => (Threw "Error", localStorage)
        | CalledBack clusters centroids =>
            match reduceClusters dataArray clusters centroids with
            | None => (Threw "TypeError", localStorage)
            | Some result =>
                (Returned (VResult result),
                 if setItemWorks host
                 then <[cacheKey filterName := JSON_stringify host result]> localStorage
                 else localStorage)
            end
        end
    end.
Proof.
  intros [Hfile Hls]. unfold filterOverlappingRosesKmeans, afterClear.
  rewrite Hfile. simpl in Hls. destruct Hls as [-> | ->]; reflexivity.
Qed.

(** On a hit in [localStorage] the parsed entry is returned. *)
Lemma kmeans_on_hit (host : Host) (localStorage : gmap string string)
    (dataArray : list Datum) (zoomLevel filterName : string)
    (doDownloadCache : bool) (text : string) (v : jsvalue) :
  staticFile host (cacheFilePath filterName) = None ->
  localStorage !! cacheKey filterName = Some text ->
  text <> "" ->
  JSON_parse host text = Some v ->
  filterOverlappingRosesKmeans host localStorage dataArray zoomLevel filterName
    false doDownloadCache
  = (Returned v, localStorage).
Proof.
  intros Hfile Hls Hne Hparse. unfold filterOverlappingRosesKmeans.
  rewrite Hfile, Hls. destruct text as [|c text]; [contradiction|].
  now rewrite Hparse.
Qed.

End WithMath.

End ReductionFacts.

(** * The claims *)

Section Claims.

Import JsNum JsMath Greedy GreedyLoop GreedyFacts HiddenCounts.
Import KMeans KmeansFilter ReductionFacts.
Context `{MathLib}.



(** C10: a sensor picked by the greedy loop is recorded in [selected]
    and kept in the working list, from which only the sensors that
    overlap it are removed; no later pass removes it, so every picked
    sensor is in the returned [filteredInSensors], which is the final
    working list. *)
Theorem greedy_picked_kept
    (dataArray : list Datum) (radius : number) (cur : option (list string)) :
  let M := buildIntersectMatrix (sensorBounds dataArray radius) in
  let start := initialFilteredIn M (map sensor dataArray) cur in
  (forall w m, pickOrBreak M w = Some m -> m ∈ w /\ m ∈ removeOverlapping M m w)
  /\ (forall w m s,
         s ∈ removeOverlapping M m w <-> s ∈ w /\ (s = m \/ overlaps M m s = false))
  /\ (forall selected w,
         loopReach M ([], start) (selected, w) -> forall p, p ∈ selected -> p ∈ w)
  /\ exists selected final r,
       greedySelect dataArray radius cur = (M, Some (selected, final))
       /\ loopReach M ([], start) (selected, final)
       /\ filterOverlappingRosesGreedy dataArray radius cur = Some r
       /\ filteredInSensors r = final
       /\ forall p, p ∈ selected -> p ∈ filteredInSensors r.
Proof.
  intros M start. split; [|split; [|split]].
  - intros w m E. apply pickOrBreak_Some in E as [Hm _].
    split; [exact Hm|]. apply removeOverlapping_elem. split; [exact Hm | now left].
  - intros w m s. apply removeOverlapping_elem.
  - intros selected w Hreach p Hp.
    apply (loopReach_inv M (pickedKept M) (pickedKept_step M)) in Hreach.
    + now apply Hreach.
    + intros q Hq. now apply elem_of_nil in Hq.
  - destruct (greedy_run (pickedKept M) dataArray radius cur)
      as (sel & final & Esel & Hreach & _ & Hkept & Eres).
    + apply pickedKept_step.
    + intros q Hq. now apply elem_of_nil in Hq.
    + exists sel, final, (resultOf M (map sensor dataArray) final).
      repeat split; try assumption. intros p Hp. now apply Hkept.
Qed.

(** C1, as amended: the greedy selector always returns, and its two
    lists split the input identifiers; whatever the clustering selector
    returns when both cache tiers miss is a result whose two lists split
    the input identifiers, and it does return when the k-means run calls
    back with a defined centroid for every point; on a hit of the static
    file or of [localStorage] it returns the cached value, whatever the
    input. *)
Theorem selectors_partition :
  (forall dataArray radius cur,
      exists r, filterOverlappingRosesGreedy dataArray radius cur = Some r
                /\ partitions (map sensor dataArray) r)
  /\ (forall host localStorage dataArray zoomLevel filterName clear download v after,
         cacheMiss host localStorage filterName clear ->
         filterOverlappingRosesKmeans host localStorage dataArray zoomLevel
           filterName clear download = (Returned v, after) ->
         exists r, v = VResult r /\ partitions (map sensor dataArray) r)
  /\ (forall host localStorage dataArray zoomLevel filterName clear download
             clusters centroids,
         cacheMiss host localStorage filterName clear ->
         kmeansRun host (numClusters zoomLevel)
           (map (fun d => [latitude d; longitude d]) dataArray)
         = CalledBack clusters centroids ->
         wellFormedRun dataArray clusters centroids ->
         exists r after,
           filterOverlappingRosesKmeans host localStorage dataArray zoomLevel
             filterName clear download = (Returned (VResult r), after))
  /\ (forall host localStorage dataArray zoomLevel filterName clear download v,
         staticFile host (cacheFilePath filterName) = Some v ->
         filterOverlappingRosesKmeans host localStorage dataArray zoomLevel
           filterName clear download
         = (Returned v, afterClear localStorage filterName clear))
  /\ (forall host localStorage dataArray zoomLevel filterName download text v,
         staticFile host (cacheFilePath filterName) = None ->
         localStorage !! cacheKey filterName = Some text ->
         text <> "" ->
         JSON_parse host text = Some v ->
         filterOverlappingRosesKmeans host localStorage dataArray zoomLevel
           filterName false download
         = (Returned v, localStorage)).
Proof.
  split; [|split; [|split; [|split]]].
  - intros dataArray radius cur.
    set (M := buildIntersectMatrix (sensorBounds dataArray radius)).
    destruct (greedy_run (within (map sensor dataArray)) dataArray radius cur)
      as (sel & final & _ & _ & _ & Hin & Eres).
    + apply within_step.
    + intros s. destruct cur as [c|]; simpl; [|done].
      now intros [_ Hs]%list_elem_of_filter.
    + eexists. split; [exact Eres|]. unfold partitions, resultOf. simpl. split.
      * intros s. rewrite list_elem_of_filter. split.
        -- intros Hs. destruct (decide (s ∈ final)); [now left | now right].
        -- intros [Hs|[_ Hs]]; [now apply Hin | exact Hs].
      * intros s [Hs [Hn _]%list_elem_of_filter]. contradiction.
  - intros host ls dataArray zoom name clear download v after Hmiss.
    rewrite (kmeans_on_miss host ls dataArray zoom name clear download Hmiss). simpl.
    destruct dataArray as [|d rest].
    + intros [= <- _]. exists emptyResult. split; [reflexivity|].
      split; [|intros s [Hs _]; now apply elem_of_nil in Hs].
      intros s. simpl. split; [intros Hs; now apply elem_of_nil in Hs|].
      intros [Hs|Hs]; now apply elem_of_nil in Hs.
    + destruct (kmeansRun host _ _) as [clusters centroids| |]; [|discriminate..].
      destruct (reduceClusters (d :: rest) clusters centroids) as [r|] eqn:Er;
        [|discriminate].
      intros [= <- _]. exists r. split; [reflexivity|].
      eapply reduceClusters_partitions. exact Er.
  - intros host ls dataArray zoom name clear download clusters centroids Hmiss Hrun Hwf.
    rewrite (kmeans_on_miss host ls dataArray zoom name clear download Hmiss). simpl.
    destruct dataArray as [|d rest]; [now eexists _, _|].
    rewrite Hrun.
    destruct (reduceClusters_defined (d :: rest) clusters centroids Hwf) as [r ->].
    now eexists _, _.
  - intros host ls dataArray zoom name clear download v Hfile.
    unfold filterOverlappingRosesKmeans, afterClear. now rewrite Hfile.
  - intros host ls dataArray zoom name download text v.
    apply kmeans_on_hit.
Qed.


(** C6, as amended: on an empty glyph array, when both cache tiers
    miss, the clustering selector returns the empty result, as the greedy
    selector does, and leaves [localStorage] as [doClearCache] left it;
    it does not raise. *)
Theorem kmeans_empty_input
    (host : Host) (localStorage : gmap string string)
    (zoomLevel filterName : string) (clear download : bool)
    (radius : number) (cur : option (list string)) :
  cacheMiss host localStorage filterName clear ->
  filterOverlappingRosesKmeans host localStorage [] zoomLevel filterName clear download
  = (Returned (VResult emptyResult),
     if clear then clearCache filterName localStorage else localStorage)
  /\ filterOverlappingRosesGreedy [] radius cur = Some emptyResult.
Proof.
  intros Hmiss. split; [|reflexivity].
  now rewrite (kmeans_on_miss host localStorage [] zoomLevel filterName clear download Hmiss).
Qed.

(** C9: once a result [r] was computed for a key and stored in
    [localStorage], a later call with the same key, the static file
    missing, returns [r]: the stored text of [r], read back. *)
Theorem cache_round_trip
    (host host' : Host) (localStorage after : gmap string string)
    (dataArray dataArray' : list Datum) (zoomLevel zoomLevel' filterName : string)
    (clear download download' : bool) (r : SelectionResult) :
  cacheMiss host localStorage filterName clear ->
  dataArray <> [] ->
  setItemWorks host = true ->
  filterOverlappingRosesKmeans host localStorage dataArray zoomLevel filterName
    clear download = (Returned (VResult r), after) ->
  JSON_stringify host r <> "" ->
  JSON_parse host' (JSON_stringify host r) = Some (VResult r) ->
  staticFile host' (cacheFilePath filterName) = None ->
  after !! cacheKey filterName = Some (JSON_stringify host r)
  /\ filterOverlappingRosesKmeans host' after dataArray' zoomLevel' filterName
       false download' = (Returned (VResult r), after).
Proof.
  intros Hmiss Hne Hset Hcall Htext Hparse Hfile.
  rewrite (kmeans_on_miss host localStorage dataArray zoomLevel filterName clear download Hmiss)
    in Hcall.
  simpl in Hcall. destruct dataArray as [|d rest]; [contradiction|].
  destruct (kmeansRun host _ _) as [clusters centroids| |]; [|discriminate..].
  destruct (reduceClusters (d :: rest) clusters centroids) as [r'|]; [|discriminate].
  rewrite Hset in Hcall. injection Hcall as -> <-.
  assert (Hstored : <[cacheKey filterName := JSON_stringify host r]>
                      (afterClear localStorage filterName clear) !! cacheKey filterName
                    = Some (JSON_stringify host r)) by apply lookup_insert_eq.
  split; [exact Hstored|].
  eapply kmeans_on_hit; eassumption.
Qed.

End Claims.

Section SampleClaims.

Import JsNum JsMath Greedy GreedyFacts KMeans KmeansFilter Samples.
Import MoveWorker.

#[local] Existing Instance sampleMath.

(** C3: [moveCenters] divides the sum of the points of a cluster by the
    number of all points, whatever the size of the cluster; with the points
    (0,0), (2,2) in cluster 0 and (10,10) in cluster 1 it returns
    (2/3, 2/3) and (10/3, 10/3), while the means of the clusters are (1,1)
    and (10,10). *)
Theorem moveCenters_divides_by_all_points :
  (forall (C : Type) (datapoints : list point) (centers : list C)
          (assignments : list Z) (result : list point) (clusterIdx : nat),
      moveCenters datapoints centers assignments = Some result ->
      clusterIdx < length centers ->
      exists total,
        reduce1 vectorAdd (members datapoints assignments clusterIdx) = Some total
        /\ result !! clusterIdx
           = Some (scalarDivide total (of_nat (length datapoints))))
  /\ let datapoints := [[0; 0]; [2; 2]; [10; 10]]%float in
     let centers := [[0; 0]; [10; 10]]%float in
     let assignments := [0; 0; 1]%Z in
     moveCenters datapoints centers assignments
     = Some [[2 / 3; 2 / 3]; [10 / 3; 10 / 3]]%float
     /\ meanOfMembers datapoints assignments 0 = Some [1; 1]%float
     /\ meanOfMembers datapoints assignments 1 = Some [10; 10]%float.
Proof.
  split.
  - intros C datapoints centers assignments result clusterIdx Hmove Hlt.
    unfold moveCenters in Hmove. apply mapM_Some_1 in Hmove.
    destruct (lookup_lt_is_Some_2 centers clusterIdx Hlt) as [center Hc].
    eapply Forall2_lookup_l in Hmove as (moved & Hres & Hmoved);
      [|rewrite list_lookup_imap, Hc; reflexivity].
    simpl in Hmoved.
    destruct (reduce1 vectorAdd (members datapoints assignments clusterIdx))
      as [total|]; [|discriminate].
    exists total. split; [reflexivity|]. simpl in Hmoved. now injection Hmoved as <-.
  - vm_compute. repeat split.
Qed.

(** C4: the assignment vector is recombined in the order in which the
    workers reply: whatever the workers compute, replies arriving as
    worker 1 then worker 0 are concatenated in that order; for the points
    (0,0), (10,10) and the centroids (0,0), (10,10) the vector is then
    [1; 0], while the points are assigned [0; 1]. *)
Theorem parallelClassifiers_arrival_order :
  (forall (P C : Type) (classify : list P -> C -> option (list Z))
          (data : list P) (centroids : C) (r0 r1 : list Z),
      classify (take (length data `div` 2) data) centroids = Some r0 ->
      classify (drop (length data `div` 2) data) centroids = Some r1 ->
      parallelClassifiers classify data centroids [0; 1] = Some (r0 ++ r1)
      /\ parallelClassifiers classify data centroids [1; 0] = Some (r1 ++ r0))
  /\ let data := [[0; 0]; [10; 10]]%float in
     let centroids := [Some [0; 0]; Some [10; 10]]%float in
     ClassifyWorker.classifyData data centroids = Some [0; 1]%Z
     /\ parallelClassifiers ClassifyWorker.classifyData data centroids [0; 1]
        = Some [0; 1]%Z
     /\ parallelClassifiers ClassifyWorker.classifyData data centroids [1; 0]
        = Some [1; 0]%Z.
Proof.
  split.
  - intros P C classify data centroids r0 r1.
    unfold parallelClassifiers, splitData.
    generalize (length data `div` 2). intros n E0 E1.
    simpl. rewrite E0, E1. simpl. split; reflexivity.
  - vm_compute. repeat split.
Qed.

(** C7: [randomIndex(max)] is [floor(random * (max + 1))], which is
    [max] for a draw close to 1; with the points (0,0), (3,4) the
    weighted list has 100 entries, the draw 0.9921875 gives index 100,
    and the second centroid of [smartInit], like the centroid of
    [reInitCentroid], is [undefined]. *)
Theorem smartInit_undefined_centroid :
  (forall max u rest,
      randomIndex max (u :: rest) = Some (Math_floor (u * (max + 1))%float, rest))
  /\ let data := [[0; 0]; [3; 4]]%float in
     (generateWeightedList copiesFuel (seq 0 2) [0; 1]%float
        ≫= fun weightedList => Some (length weightedList)) = Some 100
     /\ randomIndex 100 [0.9921875%float] = Some (100%float, [])
     /\ smartInit data 2 [0; 0.9921875]%float = Some ([Some [0; 0]%float; None], [])
     /\ reInitCentroid data [Some [0; 0]%float] [0.9921875%float] = Some (None, []).
Proof.
  split; [reflexivity|]. vm_compute. repeat split.
Qed.


(** C1, the stale entry: after a call on two glyphs under a key, a call
    on another glyph under the same key returns the stored result, whose
    lists do not split the new input. *)
Lemma kmeans_stale_cache_not_partition :
  let after :=
    (filterOverlappingRosesKmeans sampleHost ∅ twoGlyphs "0" "bef_0" false false).2 in
  filterOverlappingRosesKmeans sampleHost after [glyph "c" 0 0] "0" "bef_0" false false
  = (Returned (VResult twoGlyphsResult), after)
  /\ ~ partitions (map sensor [glyph "c" 0 0]) twoGlyphsResult.
Proof.
  split; [vm_compute; reflexivity|].
  intros [Hsplit _]. destruct (proj1 (Hsplit "c")) as [Hc|Hc].
  - left.
  - apply list_elem_of_singleton in Hc. discriminate Hc.
  - apply list_elem_of_singleton in Hc. discriminate Hc.
Qed.

(** C1, at the two glyphs and the sample host. *)
Lemma selectors_partition_witness :
  cacheMiss sampleHost ∅ "bef_0" false
  /\ partitions (map sensor twoGlyphs) twoGlyphsResult.
Proof.
  assert (Hmiss : cacheMiss sampleHost ∅ "bef_0" false).
  { split; [reflexivity | left; reflexivity]. }
  split; [exact Hmiss|].
  destruct (proj1 (proj2 (selectors_partition (H := sampleMath))) sampleHost ∅ twoGlyphs "0" "bef_0"
              false false (VResult twoGlyphsResult)
              twoGlyphsStorage Hmiss)
    as (r & Er & Hr).
  - vm_compute. reflexivity.
  - injection Er as <-. exact Hr.
Defined.



(** C6, the empty input: the clustering selector, asked for one
    cluster, returns the empty result. *)
Lemma kmeans_empty_input_returns :
  numClusters "0" = 1
  /\ filterOverlappingRosesKmeans sampleHost ∅ [] "0" "bef_0" false false
     = (Returned (VResult emptyResult), ∅).
Proof. split; reflexivity. Qed.

(** C6, at the sample host. *)
Lemma kmeans_empty_input_witness :
  cacheMiss sampleHost ∅ "bef_0" false
  /\ filterOverlappingRosesKmeans sampleHost ∅ [] "0" "bef_0" false false
     = (Returned (VResult emptyResult), ∅).
Proof.
  assert (Hmiss : cacheMiss sampleHost ∅ "bef_0" false).
  { split; [reflexivity | left; reflexivity]. }
  split; [exact Hmiss|].
  exact (proj1 (kmeans_empty_input (H := sampleMath) sampleHost ∅ "0" "bef_0" false false 15%float None Hmiss)).
Defined.

(** C9, at the two glyphs: the result stored by a first call is what a
    second call, on another input, returns. *)
Lemma cache_round_trip_witness :
  twoGlyphsStorage !! cacheKey "bef_0" = Some twoGlyphsText
  /\ filterOverlappingRosesKmeans sampleHost twoGlyphsStorage [] "3" "bef_0" false false
     = (Returned (VResult twoGlyphsResult), twoGlyphsStorage).
Proof.
  assert (Hmiss : cacheMiss sampleHost ∅ "bef_0" false).
  { split; [reflexivity | left; reflexivity]. }
  exact (cache_round_trip (H := sampleMath) sampleHost sampleHost ∅ twoGlyphsStorage twoGlyphs [] "0" "3" "bef_0"
           false false false twoGlyphsResult Hmiss
           ltac:(discriminate) eq_refl ltac:(vm_compute; reflexivity)
           ltac:(discriminate) ltac:(vm_compute; reflexivity) eq_refl).
Defined.

End SampleClaims.

(** * Further properties *)

(** ** The intersection matrix *)

Module MatrixFacts.

Import JsNum Greedy GreedyNotions FoldFacts FloatOrder GreedyLoop.

Section WithMath.
Context `{MathLib}.

Lemma intersectRow_lookup (a : SensorBound) (i : nat) (bs : list SensorBound) y v :
  intersectRow a i bs !! y = Some v ->
  exists j b, i <> j /\ bs !! j = Some b /\ bsensor b = y
              /\ isOverlapping a b offsetCoeff = true
              /\ v = calculateIntersectionArea a b /\ gt v 0 = true.
Proof.
  unfold intersectRow. revert y v.
  apply (foldl_inv _ (fun row : gmap string number => forall y v, row !! y = Some v ->
     exists j b, i <> j /\ bs !! j = Some b /\ bsensor b = y
                 /\ isOverlapping a b offsetCoeff = true
                 /\ v = calculateIntersectionArea a b /\ gt v 0 = true)).
  - intros y v. rewrite lookup_empty. discriminate.
  - intros row [j b] Hjb IH y v.
    apply elem_of_lookup_imap in Hjb as (j' & b' & [= -> ->] & Hlk).
    destruct (decide (i = j')) as [|Hne]; [apply IH|].
    destruct (isOverlapping a b' offsetCoeff) eqn:Eov; [|apply IH].
    simpl. destruct (gt (calculateIntersectionArea a b') 0) eqn:Epos; [|apply IH].
    destruct (decide (bsensor b' = y)) as [<-|Hy].
    + rewrite lookup_insert_eq. intros [= <-]. exists j', b'. repeat split; assumption.
    + rewrite lookup_insert_ne by exact Hy. apply IH.
Qed.

Lemma buildIntersectMatrix_lookup (bs : list SensorBound) x row :
  buildIntersectMatrix bs !! x = Some row ->
  exists i a, bs !! i = Some a /\ bsensor a = x /\ row = intersectRow a i bs.
Proof.
  unfold buildIntersectMatrix. revert x row.
  apply (foldl_inv _ (fun M : matrix => forall x row, M !! x = Some row ->
     exists i a, bs !! i = Some a /\ bsensor a = x /\ row = intersectRow a i bs)).
  - intros x row. rewrite lookup_empty. discriminate.
  - intros M [i a] Hia IH x row.
    apply elem_of_lookup_imap in Hia as (i' & a' & [= -> ->] & Hlk).
    destruct (decide (bsensor a' = x)) as [<-|Hx].
    + rewrite lookup_insert_eq. intros [= <-]. exists i', a'. repeat split; assumption.
    + rewrite lookup_insert_ne by exact Hx. apply IH.
Qed.

Lemma buildIntersectMatrix_cell (bs : list SensorBound) x y v :
  cell (buildIntersectMatrix bs) x y = Some v ->
  gt v 0 = true
  /\ exists i j a b, i <> j /\ bs !! i = Some a /\ bs !! j = Some b
                     /\ bsensor a = x /\ bsensor b = y
                     /\ isOverlapping a b offsetCoeff = true
                     /\ v = calculateIntersectionArea a b.
Proof.
  unfold cell. destruct (buildIntersectMatrix bs !! x) as [row|] eqn:Erow; [|discriminate].
  simpl. intros Hv.
  apply buildIntersectMatrix_lookup in Erow as (i & a & Hi & Hx & ->).
  apply intersectRow_lookup in Hv as (j & b & Hne & Hj & Hy & Hov & -> & Hpos).
  split; [exact Hpos|]. exists i, j, a, b. repeat split; assumption.
Qed.


End WithMath.


End MatrixFacts.

(** ** Further properties of the greedy selector *)

Module GreedyMore.

Import JsNum Greedy GreedyNotions FoldFacts FloatOrder GreedyLoop GreedyFacts.
Import HiddenCounts MatrixFacts.

Lemma filter_ext_elem {A} (P Q : A -> Prop) `{!forall x, Decision (P x)}
    `{!forall x, Decision (Q x)} (l : list A) :
  (forall x, x ∈ l -> P x <-> Q x) -> filter P l = filter Q l.
Proof.
  induction l as [|x l IH]; intros Hext; [reflexivity|].
  rewrite !filter_cons.
  assert (Hx : P x <-> Q x) by (apply Hext; left).
  rewrite IH by (intros y Hy; apply Hext; now right).
  destruct (decide (P x)), (decide (Q x)); tauto.
Qed.

Lemma existsb_false_elem {A} (f : A -> bool) (l : list A) (x : A) :
  existsb f l = false -> x ∈ l -> f x = false.
Proof.
  intros Hex Hx. destruct (f x) eqn:Efx; [|reflexivity].
  rewrite <- Hex. symmetry. apply existsb_exists. exists x.
  split; [now apply list_elem_of_In | exact Efx].
Qed.


(** What the filter of step 2 keeps. *)
Lemma initialFilteredIn_elem (M : matrix) (ids : list string) cur s :
  s ∈ initialFilteredIn M ids cur
  <-> s ∈ ids /\ forall c, cur = Some c -> existsb (fun p => overlaps M s p) c = false.
Proof.
  destruct cur as [c|]; simpl.
  - rewrite list_elem_of_filter. split.
    + intros [Hk Hs]. split; [exact Hs|]. intros c' [= <-].
      destruct (existsb _ c); [contradiction | reflexivity].
    + intros [Hs Hk]. split; [|exact Hs]. now rewrite (Hk c eq_refl).
  - split; [intros Hs; split; [exact Hs | discriminate] | now intros [Hs _]].
Qed.



Lemma valueFiltered_step (M : matrix) (ids sel w : list string) m :
  valueFiltered ids sel w ->
  valueFiltered ids (sel ++ [m]) (removeOverlapping M m w).
Proof.
  unfold valueFiltered. intros Hw.
  assert (E : removeOverlapping M m w
              = filter (fun s => s = m \/ ~ overlaps M m s) (filter (fun s => s ∈ w) ids)).
  { unfold removeOverlapping. now rewrite <- Hw. }
  rewrite E at 1. rewrite list_filter_filter.
  apply filter_ext_elem. intros x _. unfold removeOverlapping.
  rewrite list_elem_of_filter. tauto.
Qed.

Lemma valueFiltered_start (M : matrix) (ids : list string) cur :
  valueFiltered ids [] (initialFilteredIn M ids cur).
Proof.
  unfold valueFiltered. destruct cur as [c|]; simpl.
  - apply filter_ext_elem. intros x Hx. rewrite list_elem_of_filter. tauto.
  - symmetry. now apply filter_all.
Qed.




End GreedyMore.

Section GreedyProperties.

Import JsNum Greedy GreedyNotions FoldFacts GreedyLoop GreedyFacts.
Import HiddenCounts MatrixFacts GreedyMore.
Context `{MathLib}.

(** X1: every area stored in [intersectMatrix] is above [0] and is the area
    computed for two glyphs at distinct positions of the input on which
    [isOverlapping] holds; its two keys are their identifiers. *)
Theorem intersectMatrix_stores_overlaps
    (dataArray : list Datum) (radius : number) (x y : string) (area : number) :
  cell (buildIntersectMatrix (sensorBounds dataArray radius)) x y = Some area ->
  gt area 0 = true
  /\ truthy area = true
  /\ exists i j a b,
       i <> j
       /\ sensorBounds dataArray radius !! i = Some a
       /\ sensorBounds dataArray radius !! j = Some b
       /\ bsensor a = x /\ bsensor b = y
       /\ isOverlapping a b offsetCoeff = true
       /\ area = calculateIntersectionArea a b.
Proof.
  intros Hcell. apply buildIntersectMatrix_cell in Hcell as [Hpos Hex].
  split; [exact Hpos|]. split; [now apply FloatOrder.gt_zero_truthy | exact Hex].
Qed.


(** X3: no sensor returned visible has a stored area with a sensor of
    [curPresentSensors]. *)
Theorem greedy_visible_clear_of_present
    (dataArray : list Datum) (radius : number) (present : list string) :
  exists r,
    filterOverlappingRosesGreedy dataArray radius (Some present) = Some r
    /\ let M := buildIntersectMatrix (sensorBounds dataArray radius) in
       forall visible p, visible ∈ filteredInSensors r -> p ∈ present ->
                         overlaps M visible p = false.
Proof.
  set (M := buildIntersectMatrix (sensorBounds dataArray radius)).
  set (ids := map sensor dataArray).
  set (start := initialFilteredIn M ids (Some present)).
  destruct (greedy_run (within start) dataArray radius (Some present))
    as (sel & final & _ & _ & _ & Hin & Eres).
  - apply within_step.
  - now intros s Hs.
  - exists (resultOf M ids final). split; [exact Eres|]. simpl.
    intros s p Hs Hp. apply Hin in Hs.
    apply initialFilteredIn_elem in Hs as [_ Hk].
    eapply (existsb_false_elem (fun p => overlaps M s p)); [now apply Hk | exact Hp].
Qed.


(** X5: the two lists of the greedy selector are the input list of
    identifiers filtered by value: they keep its order, every position of
    the input goes to exactly one of them, and they have no duplicate when
    the input has none. *)
Theorem greedy_lists_in_input_order
    (dataArray : list Datum) (radius : number) (cur : option (list string)) :
  exists r,
    filterOverlappingRosesGreedy dataArray radius cur = Some r
    /\ let ids := map sensor dataArray in
       filteredInSensors r = filter (fun s => s ∈ filteredInSensors r) ids
       /\ filteredOutSensors r = filter (fun s => s ∉ filteredInSensors r) ids
       /\ filteredInSensors r `sublist_of` ids
       /\ filteredOutSensors r `sublist_of` ids
       /\ length (filteredInSensors r) + length (filteredOutSensors r) = length dataArray
       /\ (NoDup ids -> NoDup (filteredInSensors r) /\ NoDup (filteredOutSensors r)).
Proof.
  set (M := buildIntersectMatrix (sensorBounds dataArray radius)).
  set (ids := map sensor dataArray).
  destruct (greedy_run (valueFiltered ids) dataArray radius cur)
    as (sel & final & _ & _ & _ & Hv & Eres).
  - intros sel w m Hw _. now apply valueFiltered_step.
  - apply valueFiltered_start.
  - exists (resultOf M ids final). split; [exact Eres|]. simpl.
    unfold valueFiltered in Hv.
    split; [exact Hv|]. split; [reflexivity|].
    split; [rewrite Hv; apply sublist_filter|].
    split; [apply sublist_filter|]. split.
    + rewrite Hv at 1. rewrite <- length_app.
      rewrite (filter_app_complement (fun s => s ∈ final) ids).
      unfold ids. apply length_map.
    + intros Hnd. split; [rewrite Hv|]; now apply NoDup_filter.
Qed.



End GreedyProperties.

Section GreedyPasses.

Import JsNum Greedy GreedyNotions FoldFacts GreedyLoop GreedyFacts.
Import HiddenCounts MatrixFacts GreedyMore.
Context `{MathLib}.

(** X8: the sensors picked by the greedy loop are distinct, and every pass
    that picks one removes at least one other sensor: the loop makes no
    more picks than the selector returns hidden sensors. *)
Theorem greedy_passes_bound
    (dataArray : list Datum) (radius : number) (cur : option (list string)) :
  exists selected r,
    greedySelect dataArray radius cur
    = (buildIntersectMatrix (sensorBounds dataArray radius),
       Some (selected, filteredInSensors r))
    /\ filterOverlappingRosesGreedy dataArray radius cur = Some r
    /\ NoDup selected
    /\ length selected <= length (filteredOutSensors r).
Proof.
  set (M := buildIntersectMatrix (sensorBounds dataArray radius)).
  set (ids := map sensor dataArray).
  set (start := initialFilteredIn M ids cur).
  destruct (greedy_run
              (fun sel w => (NoDup sel /\ pickedKept M sel w)
                            /\ length sel + length w <= length start
                            /\ valueFiltered ids sel w)
              dataArray radius cur)
    as (sel & final & Esel & _ & _ & ([Hnd _] & Hlen & Hv) & Eres).
  - intros sel w m ([Hnd Hk] & Hlen & Hv) E. fold M in E |- *. split; [split|split].
    + apply NoDup_app. split; [exact Hnd|]. split; [|apply NoDup_singleton].
      intros p Hp ->%list_elem_of_singleton.
      pose proof E as (_ & o & Ho & Hne & Ht)%pickOrBreak_Some.
      destruct (Hk m Hp) as [_ Hno]. destruct (Hno o Ho) as [?|Hf]; [contradiction|].
      unfold overlaps in Hf. rewrite truthy_or, Ht in Hf. discriminate Hf.
    + now apply pickedKept_step.
    + pose proof (removeOverlapping_shrinks M w m E). rewrite length_app. simpl. lia.
    + now apply valueFiltered_step.
  - split; [split; [constructor | intros q Hq; now apply elem_of_nil in Hq]|].
    split; [exact (Nat.le_refl (length start)) | apply valueFiltered_start].
  - exists sel, (resultOf M ids final). split; [exact Esel|]. split; [exact Eres|].
    split; [exact Hnd|]. simpl.
    assert (Hstart : length start <= length ids).
    { unfold start, initialFilteredIn. destruct cur; [apply length_filter | lia]. }
    assert (Hsplit : length final + length (filter (fun s => s ∉ final) ids) = length ids).
    { unfold valueFiltered in Hv. rewrite Hv at 1. rewrite <- length_app.
      now rewrite (filter_app_complement (fun s => s ∈ final) ids). }
    lia.
Qed.

End GreedyPasses.

Module CacheFacts.

Import KmeansFilter CacheExport.

Lemma cacheKey_inj (a b : string) : cacheKey a = cacheKey b -> a = b.
Proof. unfold cacheKey. intros E. cbv in E. now injection E. Qed.

Lemma afterClear_other (localStorage : gmap string string) (filterName : string)
    (clear : bool) (key : string) :
  key <> cacheKey filterName ->
  afterClear localStorage filterName clear !! key = localStorage !! key.
Proof.
  intros Hne. destruct clear; simpl; [|reflexivity].
  unfold clearCache. now apply lookup_delete_ne.
Qed.

Lemma afterClear_true (localStorage : gmap string string) (filterName : string) :
  afterClear localStorage filterName true !! cacheKey filterName = None.
Proof. apply lookup_delete_eq. Qed.

Section Cases.
Context `{MathLib}.

Lemma kmeans_storage_cases (host : Host) (localStorage : gmap string string)
    (dataArray : list Datum) (zoomLevel filterName : string) (clear download : bool) :
  let res := filterOverlappingRosesKmeans host localStorage dataArray zoomLevel
               filterName clear download in
  let cleared := afterClear localStorage filterName clear in
  res.2 = cleared
  \/ exists r,
       res = (Returned (VResult r), <[cacheKey filterName := JSON_stringify host r]> cleared)
       /\ setItemWorks host = true
       /\ cacheMiss host localStorage filterName clear
       /\ dataArray <> [].
Proof.
  simpl. unfold filterOverlappingRosesKmeans, cacheMiss.
  change (if clear then clearCache filterName localStorage else localStorage)
    with (afterClear localStorage filterName clear).
  destruct (staticFile host (cacheFilePath filterName)) eqn:Est; [now left|].
  destruct (afterClear localStorage filterName clear !! cacheKey filterName)
    as [[|c text]|] eqn:Els.
  - destruct dataArray as [|d rest]; [now left|].
    destruct (kmeansRun _ _ _) as [clusters centroids| |]; try now left.
    destruct (reduceClusters _ _ _) as [r|]; [|now left].
    destruct (setItemWorks host) eqn:Eset; [|now left].
    right. exists r. repeat split; auto.
  - destruct (JSON_parse host _); now left.
  - destruct dataArray as [|d rest]; [now left|].
    destruct (kmeansRun _ _ _) as [clusters centroids| |]; try now left.
    destruct (reduceClusters _ _ _) as [r|]; [|now left].
    destruct (setItemWorks host) eqn:Eset; [|now left].
    right. exists r. repeat split; auto.
Qed.

End Cases.

End CacheFacts.

Section CacheProperties.

Import KmeansFilter CacheExport CacheFacts ReductionFacts.
Context `{MathLib}.

(** X9: a call of the clustering selector leaves every entry of
    [localStorage] other than the one of its own key as it was; in
    particular the entry of every other filter name. *)
Theorem kmeans_storage_frame (host : Host) (localStorage : gmap string string)
    (dataArray : list Datum) (zoomLevel filterName : string) (clear download : bool) :
  let after := (filterOverlappingRosesKmeans host localStorage dataArray zoomLevel
                  filterName clear download).2 in
  (forall key, key <> cacheKey filterName -> after !! key = localStorage !! key)
  /\ (forall other, other <> filterName ->
                    after !! cacheKey other = localStorage !! cacheKey other).
Proof.
  intros after.
  assert (Hframe : forall key, key <> cacheKey filterName ->
                               after !! key = localStorage !! key).
  { intros key Hne. subst after.
    destruct (kmeans_storage_cases host localStorage dataArray zoomLevel filterName
                clear download) as [-> | (r & -> & _)]; simpl.
    - now apply afterClear_other.
    - rewrite lookup_insert_ne by congruence. now apply afterClear_other. }
  split; [exact Hframe|].
  intros other Hne. apply Hframe. intros E%cacheKey_inj. contradiction.
Qed.

(** X10: the clustering selector writes to [localStorage] only the text of
    the result it computed and returns, on a miss of both tiers with a
    non-empty input; otherwise, and whenever [setItem] fails, it leaves
    [localStorage] as [doClearCache] left it. *)
Theorem kmeans_writes_only_its_result (host : Host) (localStorage : gmap string string)
    (dataArray : list Datum) (zoomLevel filterName : string) (clear download : bool) :
  let res := filterOverlappingRosesKmeans host localStorage dataArray zoomLevel
               filterName clear download in
  let cleared := afterClear localStorage filterName clear in
  (res.2 = cleared
   \/ exists r,
        res = (Returned (VResult r),
               <[cacheKey filterName := JSON_stringify host r]> cleared)
        /\ setItemWorks host = true
        /\ cacheMiss host localStorage filterName clear
        /\ dataArray <> [])
  /\ (setItemWorks host = false -> res.2 = cleared)
  /\ (dataArray = [] -> res.2 = cleared)
  /\ (forall error, res.1 = Threw error -> res.2 = cleared)
  /\ (res.1 = Pending -> res.2 = cleared).
Proof.
  intros res cleared.
  pose proof (kmeans_storage_cases host localStorage dataArray zoomLevel filterName
                clear download) as Hc.
  fold res cleared in Hc. simpl in Hc.
  split; [exact Hc|].
  repeat split.
  - intros Hset. destruct Hc as [Hc | (r & _ & Hw & _)]; [exact Hc | congruence].
  - intros Hd. destruct Hc as [Hc | (r & _ & _ & _ & Hne)]; [exact Hc | contradiction].
  - intros error He. destruct Hc as [Hc | (r & Hr & _)]; [exact Hc|].
    rewrite Hr in He. discriminate He.
  - intros He. destruct Hc as [Hc | (r & Hr & _)]; [exact Hc|].
    rewrite Hr in He. discriminate He.
Qed.

(** X11: with [doClearCache] set, the outcome of the clustering selector does
    not depend on what [localStorage] held. *)
Theorem kmeans_clear_ignores_storage (host : Host)
    (localStorage localStorage' : gmap string string)
    (dataArray : list Datum) (zoomLevel filterName : string) (download : bool) :
  (filterOverlappingRosesKmeans host localStorage dataArray zoomLevel
     filterName true download).1
  = (filterOverlappingRosesKmeans host localStorage' dataArray zoomLevel
       filterName true download).1.
Proof.
  unfold filterOverlappingRosesKmeans.
  destruct (staticFile host (cacheFilePath filterName)); [reflexivity|].
  unfold clearCache. rewrite !lookup_delete_eq.
  destruct dataArray as [|d rest]; [reflexivity|].
  destruct (kmeansRun _ _ _) as [clusters centroids| |]; try reflexivity.
  destruct (reduceClusters _ _ _); reflexivity.
Qed.

(** X12: a call with both [doClearCache] and [doDownloadCache] downloads
    nothing: the entry is removed before it is exported. *)
Theorem clear_then_download_is_empty (filterName : string)
    (localStorage : gmap string string) :
  selectorDownload filterName localStorage true true = None.
Proof.
  unfold selectorDownload, downloadCache. now rewrite afterClear_true.
Qed.

(** X13: after a call that computed and stored a result with a non-empty
    text, [downloadCache] exports that text, under the file name that,
    placed in [CACHE_DIR], is the static file of the name. *)
Theorem download_after_store (host : Host) (localStorage after : gmap string string)
    (dataArray : list Datum) (zoomLevel filterName : string)
    (clear download : bool) (r : SelectionResult) :
  cacheMiss host localStorage filterName clear ->
  dataArray <> [] ->
  setItemWorks host = true ->
  filterOverlappingRosesKmeans host localStorage dataArray zoomLevel filterName
    clear download = (Returned (VResult r), after) ->
  JSON_stringify host r <> "" ->
  exists file,
    downloadCache filterName after = Some (file, JSON_stringify host r)
    /\ cacheFilePath filterName = CACHE_DIR +:+ "/" +:+ file.
Proof.
  intros Hmiss Hne Hset Hres Htext.
  destruct (kmeans_storage_cases host localStorage dataArray zoomLevel filterName
              clear download) as [Hc | (r' & Hr & _)]; simpl in *.
  - exfalso. rewrite kmeans_on_miss in Hres, Hc by exact Hmiss. simpl in Hres, Hc.
    destruct dataArray as [|d rest]; [contradiction|].
    destruct (kmeansRun _ _ _) as [clusters centroids| |]; try discriminate.
    destruct (reduceClusters _ _ _) as [r0|]; [|discriminate].
    rewrite Hset in Hres, Hc. injection Hres as <- <-. simpl in Hc.
    destruct Hmiss as [_ Hst].
    change (if clear then clearCache filterName localStorage else localStorage)
      with (afterClear localStorage filterName clear) in Hst.
    assert (E : (<[cacheKey filterName := JSON_stringify host r0]>
                   (afterClear localStorage filterName clear)) !! cacheKey filterName
                = afterClear localStorage filterName clear !! cacheKey filterName)
      by now rewrite Hc.
    rewrite lookup_insert_eq in E.
    destruct Hst as [Hst|Hst]; rewrite Hst in E; [discriminate|].
    injection E as E. contradiction.
  - rewrite Hr in Hres. injection Hres as -> <-.
    exists (filterName +:+ "_cache.json"). split; [|reflexivity].
    unfold downloadCache. rewrite lookup_insert_eq.
    destruct (JSON_stringify host r); [contradiction | reflexivity].
Qed.

End CacheProperties.

Module ReductionMore.

Import JsNum KMeans KmeansFilter FoldFacts ReductionFacts.

Lemma pushToGroup_new (key : option Z) (d : Datum) (gs : groups) :
  exists g, (key, g) ∈ pushToGroup key d gs /\ d ∈ g.
Proof.
  unfold pushToGroup. destruct (decide (key ∈ gs.*1)) as [Hin|Hin].
  - apply list_elem_of_fmap in Hin as ([k g] & -> & Hg). simpl.
    exists (g ++ [d]). split; [|apply elem_of_app; right; left].
    apply list_elem_of_fmap. exists (k, g). split; [|exact Hg].
    simpl. now rewrite decide_True.
  - exists [d]. split; [apply elem_of_app; right; left | left].
Qed.

Lemma pushToGroup_old (key : option Z) (d : Datum) (gs : groups) k x :
  (exists g, (k, g) ∈ gs /\ x ∈ g) ->
  exists g, (k, g) ∈ pushToGroup key d gs /\ x ∈ g.
Proof.
  intros (g & Hg & Hx). unfold pushToGroup.
  destruct (decide (key ∈ gs.*1)) as [Hin|Hin].
  - destruct (decide (k = key)) as [->|Hne].
    + exists (g ++ [d]). split; [|apply elem_of_app; now left].
      apply list_elem_of_fmap. exists (key, g). split; [|exact Hg].
      simpl. now rewrite decide_True.
    + exists g. split; [|exact Hx].
      apply list_elem_of_fmap. exists (k, g). split; [|exact Hg].
      simpl. now rewrite decide_False.
  - exists g. split; [apply elem_of_app; now left | exact Hx].
Qed.

(** The glyph at index [i] is pushed to the group of [clusters[i]]. *)
Lemma groupByCluster_index (dataArray : list Datum) (clusters : list Z) i d :
  dataArray !! i = Some d ->
  exists g, (clusters !! i, g) ∈ groupByCluster dataArray clusters /\ d ∈ g.
Proof.
  intros Hi. unfold groupByCluster.
  assert (Hin : (i, d) ∈ imap pair dataArray).
  { apply elem_of_lookup_imap. eauto. }
  revert Hin. generalize (imap pair dataArray). intros l.
  generalize ([] : groups).
  induction l as [|[j e] l IH]; intros gs Hin; [now apply elem_of_nil in Hin|].
  simpl. apply elem_of_cons in Hin as [[= <- <-]|Hin]; [|now apply IH].
  apply (foldl_inv _ (fun gs' => exists g, (clusters !! i, g) ∈ gs' /\ d ∈ g)).
  - apply pushToGroup_new.
  - intros gs' [j e] _ Hq. now apply pushToGroup_old.
Qed.

Lemma centroidOf_Some (centroids : list (option point)) key c :
  centroidOf centroids key = Some c ->
  exists n, key = Some (Z.of_nat n) /\ n < length centroids.
Proof.
  destruct key as [z|]; simpl; [|discriminate].
  destruct (0 <=? z)%Z eqn:Ez; [|discriminate].
  destruct (centroids !! Z.to_nat z) as [oc|] eqn:El; [|discriminate].
  intros _. exists (Z.to_nat z). split.
  - f_equal. apply Z.leb_le in Ez. lia.
  - eapply lookup_lt_Some. exact El.
Qed.

Section Groups.
Context `{MathLib}.

Lemma reduceGroups_reps (centroids : list (option point)) (entries : groups) st st' :
  reduceGroups centroids st entries = Some st' ->
  forall entry, entry ∈ entries -> is_Some (representative centroids entry).
Proof.
  revert st. induction entries as [|e rest IH]; intros st; simpl.
  - intros _ entry Hin. now apply elem_of_nil in Hin.
  - unfold reduceGroup at 1.
    destruct (representative centroids e) as [rep|] eqn:Erep; [|discriminate].
    simpl. intros E entry Hin. apply elem_of_cons in Hin as [->|Hin].
    + rewrite Erep. now eexists.
    + eapply IH; eassumption.
Qed.

Lemma reduceGroups_counts (centroids : list (option point)) (entries : groups) st st' :
  reduceGroups centroids st entries = Some st' ->
  forall k n, st'.2 !! k = Some n ->
    st.2 !! k = Some n
    \/ exists entry rep, entry ∈ entries
                         /\ representative centroids entry = Some rep
                         /\ sensor rep = k /\ n = length entry.2 /\ 1 < n.
Proof.
  revert st. induction entries as [|e rest IH]; intros st; simpl.
  - intros [= <-] k n Hk. now left.
  - unfold reduceGroup at 1.
    destruct (representative centroids e) as [rep|] eqn:Erep; [|discriminate].
    simpl. intros E k n Hk.
    destruct (IH _ E k n Hk) as [Hst|(e' & rep' & He' & Hr & Hs & Hn & Hlt)].
    + simpl in Hst. destruct (decide (1 < length e.2)) as [Hlt|Hle]; [|now left].
      destruct (decide (sensor rep = k)) as [Heq|Hne].
      * rewrite Heq, lookup_insert_eq in Hst. injection Hst as <-.
        right. exists e, rep. split; [left|]. repeat split; auto.
      * rewrite lookup_insert_ne in Hst by exact Hne. now left.
    + right. exists e', rep'. split; [now right|]. repeat split; auto.
Qed.

Lemma setAdd_NoDup (x : string) (set : list string) : NoDup set -> NoDup (setAdd x set).
Proof.
  intros Hnd. unfold setAdd. destruct (decide (x ∈ set)) as [Hin|Hin]; [exact Hnd|].
  apply NoDup_app. split; [exact Hnd|]. split; [|apply NoDup_singleton].
  intros y Hy ->%list_elem_of_singleton. contradiction.
Qed.

Lemma setAdd_length (x : string) (set : list string) :
  length (setAdd x set) <= length set + 1.
Proof.
  unfold setAdd. destruct (decide (x ∈ set)); [lia|]. rewrite length_app. simpl. lia.
Qed.

Lemma reduceGroups_set (centroids : list (option point)) (entries : groups) st st' :
  reduceGroups centroids st entries = Some st' ->
  NoDup st.1 ->
  NoDup st'.1 /\ length st'.1 <= length st.1 + length entries.
Proof.
  revert st. induction entries as [|e rest IH]; intros st; simpl.
  - intros [= <-] Hnd. split; [exact Hnd | lia].
  - unfold reduceGroup at 1.
    destruct (representative centroids e) as [rep|] eqn:Erep; [|discriminate].
    simpl. intros E Hnd. destruct (IH _ E) as [Hnd' Hlen].
    + simpl. now apply setAdd_NoDup.
    + split; [exact Hnd'|]. simpl in Hlen.
      pose proof (setAdd_length (sensor rep) st.1). lia.
Qed.

(** The groups are at most as many as the glyphs, and, when each has a
    defined centroid, at most as many as the centroids. *)
Lemma groups_length (dataArray : list Datum) (clusters : list Z) :
  length (groupByCluster dataArray clusters) <= length dataArray.
Proof.
  destruct (groupByCluster_spec dataArray clusters) as [[_ Hne] Hperm].
  rewrite <- (Permutation_length Hperm). clear Hperm.
  revert Hne. generalize (groupByCluster dataArray clusters).
  intros gs Hne. induction gs as [|[k g] gs IH]; [simpl; lia|].
  rewrite fmap_cons. cbn [concat snd]. rewrite length_app. destruct g as [|d g].
  - exfalso. eapply Hne; [left | reflexivity].
  - assert (length gs <= length (concat gs.*2)) as Hle.
    { apply IH. intros k' g' Hin. eapply Hne. right. exact Hin. }
    cbn [length]. lia.
Qed.

Lemma keys_length (centroids : list (option point)) (gs : groups) :
  NoDup gs.*1 ->
  (forall entry, entry ∈ gs -> is_Some (centroidOf centroids entry.1)) ->
  length gs <= length centroids.
Proof.
  intros Hnd Hall.
  assert (Hle : length gs.*1
                <= length ((fun n => Some (Z.of_nat n)) <$> seq 0 (length centroids))).
  2: { now rewrite !length_fmap, length_seq in Hle. }
  apply submseteq_length, NoDup_submseteq; [exact Hnd|].
  intros key Hkey. apply list_elem_of_fmap in Hkey as (entry & -> & Hin).
  destruct (Hall entry Hin) as [c Hc].
  apply centroidOf_Some in Hc as (n & -> & Hn).
  apply list_elem_of_fmap. exists n. split; [reflexivity|].
  apply elem_of_seq. lia.
Qed.

End Groups.

End ReductionMore.

Section ReductionProperties.

Import JsNum KMeans KmeansFilter ReductionFacts ReductionMore.
Context `{MathLib}.

(** X14: the reduction of the clustering selector returns a result exactly
    when the cluster index of every glyph names a defined centroid;
    otherwise it raises a [TypeError]. *)
Theorem reduceClusters_returns_iff (dataArray : list Datum) (clusters : list Z)
    (centroids : list (option point)) :
  is_Some (reduceClusters dataArray clusters centroids)
  <-> wellFormedRun dataArray clusters centroids.
Proof.
  split; [|apply reduceClusters_defined].
  intros [r Hr] i Hi.
  apply reduceClusters_result in Hr as (st & Hst & _).
  destruct (lookup_lt_is_Some_2 dataArray i Hi) as [d Hd].
  destruct (groupByCluster_index dataArray clusters i d Hd) as (g & Hg & _).
  destruct (reduceGroups_reps _ _ _ _ Hst _ Hg) as [rep Hrep].
  apply representative_spec in Hrep as (c & Hc & _). simpl in Hc.
  rewrite Hc. now eexists.
Qed.

(** X15: in the result of the reduction every glyph is represented: the glyph
    at index [i] is in the group of [clusters[i]], whose representative,
    a glyph of that group, is visible. *)
Theorem kmeans_every_glyph_represented (dataArray : list Datum) (clusters : list Z)
    (centroids : list (option point)) (r : SelectionResult) (i : nat) (d : Datum) :
  reduceClusters dataArray clusters centroids = Some r ->
  dataArray !! i = Some d ->
  exists group rep,
    (clusters !! i, group) ∈ groupByCluster dataArray clusters
    /\ d ∈ group
    /\ representative centroids (clusters !! i, group) = Some rep
    /\ rep ∈ group
    /\ rep ∈ dataArray
    /\ sensor rep ∈ filteredInSensors r.
Proof.
  intros Hr Hd.
  apply reduceClusters_result in Hr as (st & Hst & Hin & _).
  destruct (groupByCluster_index dataArray clusters i d Hd) as (g & Hg & Hdg).
  destruct (reduceGroups_reps _ _ _ _ Hst _ Hg) as [rep Hrep].
  exists g, rep. split; [exact Hg|]. split; [exact Hdg|]. split; [exact Hrep|].
  pose proof Hrep as (c & _ & Hmem & _)%representative_spec. simpl in Hmem.
  split; [exact Hmem|]. split.
  - destruct (groupByCluster_spec dataArray clusters) as [_ Hperm].
    rewrite <- Hperm. apply elem_of_concat. exists g. split; [exact Hmem|].
    apply list_elem_of_fmap. exists (clusters !! i, g). now split.
  - rewrite Hin. apply (reduceGroups_keep _ _ _ _ Hst). right.
    exists (clusters !! i, g), rep. now repeat split.
Qed.

(** X16: in the map returned by the reduction every key is a visible sensor,
    the representative of a group, and its count is the size of that
    group: at least 2 and at most the number of glyphs. *)
Theorem kmeans_counts_bounds (dataArray : list Datum) (clusters : list Z)
    (centroids : list (option point)) (r : SelectionResult)
    (visible : string) (count : nat) :
  reduceClusters dataArray clusters centroids = Some r ->
  hiddenCountsMap r !! visible = Some count ->
  visible ∈ filteredInSensors r
  /\ 2 <= count <= length dataArray
  /\ exists entry rep,
       entry ∈ groupByCluster dataArray clusters
       /\ representative centroids entry = Some rep
       /\ sensor rep = visible
       /\ count = length entry.2.
Proof.
  intros Hr Hc.
  apply reduceClusters_result in Hr as (st & Hst & Hin & Hmap & _).
  rewrite Hmap in Hc.
  destruct (reduceGroups_counts _ _ _ _ Hst _ _ Hc)
    as [Hemp|(entry & rep & He & Hrep & Hs & Hn & Hlt)].
  { simpl in Hemp. now rewrite lookup_empty in Hemp. }
  split.
  - rewrite Hin. apply (reduceGroups_keep _ _ _ _ Hst). right.
    exists entry, rep. now repeat split.
  - split; [|exists entry, rep; now repeat split].
    split; [lia|]. subst count.
    destruct (groupByCluster_spec dataArray clusters) as [_ Hperm].
    rewrite <- (Permutation_length Hperm). clear Hperm.
    apply list_elem_of_split in He as (l1 & l2 & ->).
    rewrite fmap_app, concat_app, fmap_cons, length_app. simpl.
    rewrite length_app. lia.
Qed.

(** X17: the visible sensors of the reduction are distinct and at most one
    per group: no more than the centroids, and no more than the glyphs. *)
Theorem kmeans_visible_bounds (dataArray : list Datum) (clusters : list Z)
    (centroids : list (option point)) (r : SelectionResult) :
  reduceClusters dataArray clusters centroids = Some r ->
  NoDup (filteredInSensors r)
  /\ length (filteredInSensors r) <= length (groupByCluster dataArray clusters)
  /\ length (groupByCluster dataArray clusters) <= length centroids
  /\ length (groupByCluster dataArray clusters) <= length dataArray.
Proof.
  intros Hr.
  apply reduceClusters_result in Hr as (st & Hst & Hin & _).
  destruct (reduceGroups_set _ _ _ _ Hst) as [Hnd Hlen]; [constructor|].
  rewrite Hin. split; [exact Hnd|]. split; [simpl in Hlen; lia|].
  split; [|apply groups_length].
  apply keys_length.
  - apply groupByCluster_spec.
  - intros entry He. destruct (reduceGroups_reps _ _ _ _ Hst _ He) as [rep Hrep].
    apply representative_spec in Hrep as (c & Hc & _). rewrite Hc. now eexists.
Qed.

End ReductionProperties.

Module KMeansFacts.

Import JsNum JsMath KMeans.

Lemma mapM_app {A B} (f : A -> option B) (l1 l2 : list A) :
  mapM f (l1 ++ l2) = (x ← mapM f l1; y ← mapM f l2; Some (x ++ y)).
Proof.
  induction l1 as [|a l1 IH]; simpl.
  - destruct (mapM f l2); reflexivity.
  - destruct (f a); simpl; [|reflexivity]. rewrite IH.
    destruct (mapM f l1); simpl; [|reflexivity]. destruct (mapM f l2); reflexivity.
Qed.

Lemma indexOf_range (distance : list number) (x : number) (from : Z) :
  let z := ClassifyWorker.indexOf distance x from in
  z = (-1)%Z
  \/ ((from <= z < from + Z.of_nat (length distance))%Z
      /\ (exists d, distance !! Z.to_nat (z - from) = Some d /\ strict_eq d x = true)
      /\ forall j d, j < Z.to_nat (z - from) -> distance !! j = Some d ->
                     strict_eq d x = false).
Proof.
  revert from. induction distance as [|d rest IH]; intros from; simpl; [now left|].
  destruct (strict_eq d x) eqn:Ed.
  - right. split; [lia|]. replace (from - from)%Z with 0%Z by lia. simpl.
    split; [now exists d|]. intros j d' Hj. lia.
  - destruct (IH (from + 1)%Z) as [IH'|(Hr & (d' & Hd' & He) & Hfirst)]; [now left|].
    right. set (z := ClassifyWorker.indexOf rest x (from + 1)) in *.
    split; [lia|].
    replace (Z.to_nat (z - from)) with (S (Z.to_nat (z - (from + 1)))) by lia.
    split; [now exists d'|].
    intros [|j] dj Hj Hdj; simpl in Hdj.
    + now injection Hdj as <-.
    + apply (Hfirst j); [lia | exact Hdj].
Qed.

Lemma members_nonempty (datapoints : list point) (assignments : list Z)
    (clusterIdx : nat) :
  MoveWorker.members datapoints assignments clusterIdx <> []
  <-> exists dataIdx point,
        datapoints !! dataIdx = Some point
        /\ assignments !! dataIdx = Some (Z.of_nat clusterIdx).
Proof.
  unfold MoveWorker.members. split.
  - intros Hne.
    destruct (omap _ (imap pair datapoints)) as [|p rest] eqn:E; [contradiction|].
    assert (Hp : p ∈ omap (fun '(dataIdx, point) =>
                   if decide (assignments !! dataIdx = Some (Z.of_nat clusterIdx))
                   then Some point else None) (imap pair datapoints))
      by (rewrite E; left).
    apply list_elem_of_omap in Hp as ([i q] & Hin & Hq).
    apply elem_of_lookup_imap in Hin as (i' & q' & [= <- <-] & Hi).
    destruct (decide (assignments !! i = Some (Z.of_nat clusterIdx))); [|discriminate].
    now exists i, q.
  - intros (i & p & Hi & Ha) E.
    assert (Hp : p ∈ omap (fun '(dataIdx, point) =>
                   if decide (assignments !! dataIdx = Some (Z.of_nat clusterIdx))
                   then Some point else None) (imap pair datapoints)).
    { apply list_elem_of_omap. exists (i, p). split.
      - apply elem_of_lookup_imap. eauto.
      - now rewrite decide_True. }
    rewrite E in Hp. now apply elem_of_nil in Hp.
Qed.

Lemma moveCenters_defined {C} (datapoints : list point) (centers : list C)
    (assignments : list Z) :
  is_Some (MoveWorker.moveCenters datapoints centers assignments)
  <-> forall clusterIdx, clusterIdx < length centers ->
        exists dataIdx p,
          datapoints !! dataIdx = Some p
          /\ assignments !! dataIdx = Some (Z.of_nat clusterIdx).
Proof.
  unfold MoveWorker.moveCenters.
  rewrite mapM_is_Some, Forall_forall. split.
  - intros Hall i Hi. apply members_nonempty.
    destruct (lookup_lt_is_Some_2 centers i Hi) as [c Hc].
    specialize (Hall (i, c)). simpl in Hall.
    destruct Hall as [x Hx]; [apply elem_of_lookup_imap; eauto|].
    intros E. rewrite E in Hx. discriminate Hx.
  - intros Hall [i c] Hin. simpl.
    apply elem_of_lookup_imap in Hin as (i' & c' & [= <- <-] & Hc).
    apply lookup_lt_Some in Hc. apply Hall, members_nonempty in Hc.
    destruct (MoveWorker.members datapoints assignments i); [contradiction|].
    simpl. now eexists.
Qed.

Section Seeding.
Context `{MathLib}.

Lemma drawPoint_spec (data : list point) (weights draws : list number) c rest :
  drawPoint data weights draws = Some (c, rest) ->
  (exists u, draws = u :: rest) /\ forall p, c = Some p -> p ∈ data.
Proof.
  unfold drawPoint.
  destruct (generateWeightedList _ _ _) as [weightedList|]; simpl; [|discriminate].
  unfold randomIndex, random. destruct draws as [|u draws]; simpl; [discriminate|].
  intros [= <- <-]. split; [now exists u|].
  intros p Hp. destruct (mjoin _) as [i|]; simpl in Hp; [|discriminate].
  eapply list_elem_of_lookup_2. exact Hp.
Qed.

Lemma reInitCentroid_spec (data : list point) (centroids : list (option point))
    (draws : list number) c rest :
  reInitCentroid data centroids draws = Some (c, rest) ->
  (exists u, draws = u :: rest) /\ forall p, c = Some p -> p ∈ data.
Proof.
  unfold reInitCentroid.
  destruct (minDistanceToCentroid _ _) as [distances|]; simpl; [|discriminate].
  destruct (normalise _) as [weights|]; simpl; [|discriminate].
  apply drawPoint_spec.
Qed.

Lemma seedMore_spec (count : nat) (data : list point) (centroids : list (option point))
    (weights draws : list number) centroids' rest :
  seedMore count data centroids weights draws = Some (centroids', rest) ->
  exists added used,
    centroids' = centroids ++ added /\ length added = count
    /\ draws = used ++ rest /\ length used = count
    /\ forall p, Some p ∈ added -> p ∈ data.
Proof.
  revert centroids weights draws.
  induction count as [|count IH]; intros centroids weights draws; simpl.
  - intros [= <- <-]. exists [], []. rewrite app_nil_r. repeat split; auto.
    intros p Hp. now apply elem_of_nil in Hp.
  - destruct (drawPoint data weights draws) as [[c draws']|] eqn:Edraw;
      simpl; [|discriminate].
    destruct (minDistanceToCentroid _ _) as [distances|]; simpl; [|discriminate].
    destruct (normalise _) as [weights'|]; simpl; [|discriminate].
    intros E. apply IH in E as (added & used & -> & Hla & -> & Hlu & Hin).
    apply drawPoint_spec in Edraw as [[u ->] Hc].
    exists (c :: added), (u :: used). rewrite <- app_assoc. simpl.
    repeat split; auto.
    intros p [[= <-]|Hp]%elem_of_cons; [now apply Hc | now apply Hin].
Qed.

End Seeding.

End KMeansFacts.

Module EmptyClusterFacts.

Import JsNum JsMath KMeans EmptyClusters KMeansFacts.

Section Check.
Context `{MathLib}.

Lemma checkFrom_app (data : list point) (l1 l2 : list nat) (st : checkState) :
  checkFrom data (l1 ++ l2) st = (st' ← checkFrom data l1 st; checkFrom data l2 st').
Proof.
  revert st. induction l1 as [|i l1 IH]; intros st; simpl; [reflexivity|].
  destruct (checkCluster data st i) as [st1|]; simpl; [apply IH | reflexivity].
Qed.

Lemma checkFrom_present (data : list point) (indices : list nat) (st : checkState) :
  (forall i, i ∈ indices -> Z.of_nat i ∈ classified st) ->
  checkFrom data indices st = Some st.
Proof.
  induction indices as [|i rest IH]; intros Hall; simpl; [reflexivity|].
  unfold checkCluster. rewrite decide_True by (apply Hall; left). simpl.
  apply IH. intros j Hj. apply Hall. now right.
Qed.

Lemma checkFrom_emptied (data : list point) (indices : list nat) (st st' : checkState) :
  classified st = [] ->
  checkFrom data indices st = Some st' ->
  classified st' = []
  /\ (indices <> [] -> emptyClusters st' = true)
  /\ length (centroids st') = length (centroids st)
  /\ (forall j, j ∉ indices -> centroids st' !! j = centroids st !! j)
  /\ (forall j p, j ∈ indices -> j < length (centroids st) ->
                  centroids st' !! j = Some (Some p) -> p ∈ data)
  /\ exists used, draws st = used ++ draws st' /\ length used = length indices.
Proof.
  revert st. induction indices as [|i rest IH]; intros st Hcl; simpl.
  - intros [= <-]. split; [exact Hcl|]. split; [congruence|].
    split; [reflexivity|]. split; [reflexivity|].
    split; [intros j p Hj; now apply elem_of_nil in Hj|]. now exists [].
  - unfold checkCluster at 1. rewrite Hcl.
    rewrite decide_False by (intros Hin; now apply elem_of_nil in Hin).
    destruct (reInitCentroid data (centroids st) (draws st)) as [[c rest']|] eqn:Ere;
      simpl; [|discriminate].
    intros E. pose proof E as Hret.
    apply IH in E as (Hcl' & Hflag & Hlen & Hkeep & Hnew & used & Hused & Hlu);
      [|reflexivity].
    simpl in Hlen, Hkeep, Hnew, Hused.
    apply reInitCentroid_spec in Ere as [[u Hu] Hc].
    split; [exact Hcl'|]. split.
    { intros _. destruct rest as [|i' rest].
      - simpl in Hret. now injection Hret as <-.
      - now apply Hflag. }
    split; [now rewrite Hlen, length_insert|]. split.
    { intros j Hj. rewrite Hkeep by (intros Hin; apply Hj; now right).
      apply list_lookup_insert_ne. intros ->. apply Hj. left. }
    split.
    { intros j p Hj Hlt Hp. destruct (decide (j ∈ rest)) as [Hin|Hin].
      - apply (Hnew j p Hin); [now rewrite length_insert | exact Hp].
      - apply elem_of_cons in Hj as [->|Hj]; [|contradiction].
        rewrite Hkeep in Hp by exact Hin.
        rewrite list_lookup_insert_eq in Hp by exact Hlt.
        injection Hp as Hp. now apply Hc. }
    exists (u :: used). rewrite Hu, Hused. split; [reflexivity | simpl; lia].
Qed.

Lemma checkFrom_flag_mono (data : list point) (indices : list nat) (st st' : checkState) :
  emptyClusters st = true ->
  checkFrom data indices st = Some st' ->
  emptyClusters st' = true.
Proof.
  revert st. induction indices as [|i rest IH]; intros st Hflag; simpl.
  - now intros [= <-].
  - unfold checkCluster at 1. destruct (decide _); simpl; [now apply IH|].
    destruct (reInitCentroid _ _ _) as [[c rest']|]; simpl; [|discriminate].
    now apply IH.
Qed.

Lemma checkFrom_flag (data : list point) (indices : list nat) (st st' : checkState) :
  checkFrom data indices st = Some st' ->
  emptyClusters st' = false ->
  forall i, i ∈ indices -> Z.of_nat i ∈ classified st.
Proof.
  revert st. induction indices as [|i rest IH]; intros st; simpl.
  - intros _ _ j Hj. now apply elem_of_nil in Hj.
  - unfold checkCluster at 1.
    destruct (decide (Z.of_nat i ∈ classified st)) as [Hin|Hin]; simpl.
    + intros E Hflag j [->|Hj]%elem_of_cons; [exact Hin | now apply (IH st)].
    + destruct (reInitCentroid _ _ _) as [[c rest']|]; simpl; [|discriminate].
      intros E Hflag. apply checkFrom_flag_mono in E; [congruence | reflexivity].
Qed.

End Check.

End EmptyClusterFacts.

Section KMeansProperties.

Import JsNum JsMath KMeans EmptyClusters KMeansFacts EmptyClusterFacts.
Context `{MathLib}.

(** X18: [splitData] cuts the data in two buckets, the first with half of the
    points rounded down, and [combineData] on the two buckets gives the
    data back. *)
Theorem split_then_combine {A} (data : list A) :
  combineData (splitData data) = Some data
  /\ exists first second,
       splitData data = [first; second]
       /\ length first = length data `div` 2
       /\ length first <= length second <= length first + 1.
Proof.
  unfold splitData, combineData. split; [now rewrite take_drop|].
  eexists _, _. split; [reflexivity|].
  rewrite length_take, length_drop.
  pose proof (Nat.div_mod_eq (length data) 2) as Hd.
  pose proof (Nat.mod_upper_bound (length data) 2) as Hm.
  change (Nat.div (length data) 2) with (length data `div` 2) in Hd.
  generalize dependent (length data `div` 2). intros q Hd. lia.
Qed.

(** X19: when the replies of the two workers arrive in the order of the
    buckets, a pass of [parallelClassifiers] yields what [classifyData]
    yields on the whole data, and recombines nothing when a worker
    throws. *)
Theorem parallelClassifiers_in_order (data : list point)
    (centroids : list (option point)) :
  parallelClassifiers ClassifyWorker.classifyData data centroids [0; 1]
  = ClassifyWorker.classifyData data centroids.
Proof.
  assert (E : forall n, ClassifyWorker.classifyData data centroids
                = (x ← ClassifyWorker.classifyData (take n data) centroids;
                   y ← ClassifyWorker.classifyData (drop n data) centroids;
                   Some (x ++ y))).
  { intros n. unfold ClassifyWorker.classifyData.
    rewrite <- mapM_app, take_drop. reflexivity. }
  rewrite (E (length data `div` 2)).
  unfold parallelClassifiers, splitData.
  generalize (length data `div` 2). intros n. simpl.
  destruct (ClassifyWorker.classifyData (take n data) centroids) as [r0|];
    destruct (ClassifyWorker.classifyData (drop n data) centroids) as [r1|];
    reflexivity.
Qed.

(** X20: [classifyData] returns one index per point; the index of a point is
    [-1] or the first position of a distance that is [===] the smallest
    one, hence below the number of centers. *)
Theorem classifyData_range (datapoints : list point)
    (centers : list (option point)) (assignments : list Z) :
  ClassifyWorker.classifyData datapoints centers = Some assignments ->
  length assignments = length datapoints
  /\ forall i z, assignments !! i = Some z ->
       (-1 <= z < Z.of_nat (length centers))%Z
       /\ exists p distance,
            datapoints !! i = Some p
            /\ mapM (fun center => ClassifyWorker.calcDistance (Some p) center) centers
               = Some distance
            /\ (z = (-1)%Z
                \/ (exists d, distance !! Z.to_nat z = Some d
                              /\ strict_eq d (Math_min_list distance) = true)
                   /\ forall j d, j < Z.to_nat z -> distance !! j = Some d ->
                                  strict_eq d (Math_min_list distance) = false).
Proof.
  unfold ClassifyWorker.classifyData. intros Hm.
  split; [symmetry; eapply length_mapM; exact Hm|].
  apply mapM_Some_1 in Hm. intros i z Hz.
  destruct (Forall2_lookup_r _ _ _ _ _ Hm Hz) as (p & Hp & Hf).
  destruct (mapM _ centers) as [distance|] eqn:Ed; simpl in Hf; [|discriminate].
  injection Hf as <-.
  pose proof (length_mapM _ _ _ Ed) as Hlen.
  pose proof (indexOf_range distance (Math_min_list distance) 0) as Hr. simpl in Hr.
  rewrite Z.sub_0_r in Hr. split.
  - destruct Hr as [->|[Hr _]]; lia.
  - exists p, distance. split; [exact Hp|]. split; [exact Ed|].
    destruct Hr as [Hr|(_ & Hd & Hfirst)]; [now left | right; now split].
Qed.

(** X21: [moveCenters] returns exactly when every cluster has a member, a
    point whose assignment is the cluster's index, and then returns one
    centroid per center; with a cluster without member it raises. *)
Theorem moveCenters_defined_iff {C} (datapoints : list point) (centers : list C)
    (assignments : list Z) :
  (is_Some (MoveWorker.moveCenters datapoints centers assignments)
   <-> forall clusterIdx, clusterIdx < length centers ->
         exists dataIdx p,
           datapoints !! dataIdx = Some p
           /\ assignments !! dataIdx = Some (Z.of_nat clusterIdx))
  /\ forall result,
       MoveWorker.moveCenters datapoints centers assignments = Some result ->
       length result = length centers.
Proof.
  split; [apply moveCenters_defined|].
  intros result Hr. unfold MoveWorker.moveCenters in Hr.
  apply length_mapM in Hr. now rewrite length_imap in Hr.
Qed.

(** X22: when [smartInit] returns, it has made one centroid for [k = 0] and
    [k] centroids otherwise, each of them a point of the data or
    [undefined], and it has consumed one draw per centroid. *)
Theorem smartInit_shape (data : list point) (k : nat) (draws : list number)
    (centroids : list (option point)) (rest : list number) :
  smartInit data k draws = Some (centroids, rest) ->
  length centroids = Nat.max k 1
  /\ (exists used, draws = used ++ rest /\ length used = Nat.max k 1)
  /\ (forall p, Some p ∈ centroids -> p ∈ data)
  /\ data <> [].
Proof.
  unfold smartInit, random. destruct draws as [|u draws']; simpl; [discriminate|].
  destruct (mapM _ data) as [distances|] eqn:Ed; simpl; [|discriminate].
  destruct (normalise distances) as [weights|] eqn:En; simpl; [|discriminate].
  intros E. apply seedMore_spec in E as (added & used & -> & Hla & -> & Hlu & Hin).
  split; [rewrite length_app; simpl; lia|].
  split; [exists (u :: used); split; [reflexivity | simpl; lia]|].
  split.
  - intros p [Hp|Hp]%elem_of_app; [|now apply Hin].
    apply list_elem_of_singleton in Hp. symmetry in Hp.
    unfold at_number in Hp. destruct (index_of _) as [i|]; simpl in Hp; [|discriminate].
    eapply list_elem_of_lookup_2. exact Hp.
  - intros ->. simpl in Ed. injection Ed as <-. discriminate En.
Qed.

(** X23: on empty data [smartInit] and [reInitCentroid] raise: the sum of
    the distances is a [reduce] without initial value on an empty array. *)
Theorem seeding_raises_on_empty_data (k : nat) (centroids : list (option point))
    (draws : list number) :
  smartInit [] k draws = None /\ reInitCentroid [] centroids draws = None.
Proof.
  split.
  - unfold smartInit, random. destruct draws; reflexivity.
  - reflexivity.
Qed.

(** X24: when every cluster index occurs in the classification, the check
    for empty clusters changes nothing and consumes no draw. *)
Theorem checkEmptyClusters_none_empty (data : list point) (classified_data : list Z)
    (centroids : list (option point)) (draws : list number) :
  (forall i, i < length centroids -> Z.of_nat i ∈ classified_data) ->
  checkEmptyClusters data classified_data centroids draws
  = Some {| classified := classified_data; centroids := centroids;
            emptyClusters := false; draws := draws |}.
Proof.
  intros Hall. unfold checkEmptyClusters. apply checkFrom_present. simpl.
  intros i Hi%elem_of_seq. apply Hall. lia.
Qed.

(** X25: when cluster [i0] is the first empty one, the check that returns
    has emptied the classification, kept the centroids below [i0], and
    re-seeded cluster [i0] and every cluster after it, empty or not, at
    one draw each, with a point of the data or [undefined]. *)
Theorem checkEmptyClusters_reseeds_rest (data : list point) (classified_data : list Z)
    (centroids : list (option point)) (draws : list number)
    (i0 : nat) (st : checkState) :
  checkEmptyClusters data classified_data centroids draws = Some st ->
  i0 < length centroids ->
  Z.of_nat i0 ∉ classified_data ->
  (forall i, i < i0 -> Z.of_nat i ∈ classified_data) ->
  emptyClusters st = true
  /\ classified st = []
  /\ length (EmptyClusters.centroids st) = length centroids
  /\ (forall i, i < i0 -> EmptyClusters.centroids st !! i = centroids !! i)
  /\ (forall i p, i0 <= i -> EmptyClusters.centroids st !! i = Some (Some p) -> p ∈ data)
  /\ exists used, draws = used ++ EmptyClusters.draws st
                  /\ length used = length centroids - i0.
Proof.
  unfold checkEmptyClusters. intros Hret Hi0 Hempty Hbelow.
  assert (Hseq : seq 0 (length centroids)
                 = seq 0 i0 ++ i0 :: seq (S i0) (length centroids - S i0)).
  { replace (length centroids) with (i0 + S (length centroids - S i0)) at 1 by lia.
    rewrite seq_app. simpl. reflexivity. }
  rewrite Hseq, checkFrom_app in Hret.
  rewrite checkFrom_present in Hret
    by (simpl; intros i Hi%elem_of_seq; apply Hbelow; lia).
  simpl in Hret. unfold checkCluster at 1 in Hret. simpl in Hret.
  rewrite decide_False in Hret by exact Hempty.
  destruct (reInitCentroid data centroids draws) as [[c rest]|] eqn:Ere;
    simpl in Hret; [|discriminate].
  assert (Hflag : emptyClusters st = true).
  { eapply checkFrom_flag_mono; [|exact Hret]. reflexivity. }
  apply checkFrom_emptied in Hret
    as (Hcl & _ & Hlen & Hkeep & Hnew & used & Hused & Hlu); [|reflexivity].
  simpl in Hlen, Hkeep, Hnew, Hused. rewrite length_insert in Hlen, Hnew.
  apply reInitCentroid_spec in Ere as [[u Hu] Hc].
  split; [exact Hflag|]. split; [exact Hcl|]. split; [exact Hlen|]. split.
  { intros i Hi. rewrite Hkeep by (intros Hin%elem_of_seq; lia).
    apply list_lookup_insert_ne. lia. }
  split.
  { intros i p Hi Hp.
    assert (Hlt : i < length centroids).
    { rewrite <- Hlen. eapply lookup_lt_Some. exact Hp. }
    destruct (decide (i = i0)) as [->|Hne].
    - rewrite Hkeep in Hp by (intros Hin%elem_of_seq; lia).
      rewrite list_lookup_insert_eq in Hp by exact Hlt.
      injection Hp as Hp. now apply Hc.
    - apply (Hnew i p); [apply elem_of_seq; lia | exact Hlt | exact Hp]. }
  exists (u :: used). rewrite Hu, Hused. split; [reflexivity|].
  simpl. rewrite Hlu, length_seq. lia.
Qed.

(** X26: a classification with one assignment per point in which the check
    finds no empty cluster is one on which [moveCenters] does not raise. *)
Theorem mover_defined_after_check (data : list point) (classified_data : list Z)
    (centroids : list (option point)) (draws : list number) (st : checkState) :
  checkEmptyClusters data classified_data centroids draws = Some st ->
  emptyClusters st = false ->
  length classified_data = length data ->
  is_Some (MoveWorker.moveCenters data centroids classified_data).
Proof.
  unfold checkEmptyClusters. intros Hret Hflag Hlen.
  apply moveCenters_defined. intros clusterIdx Hk.
  assert (Hin : Z.of_nat clusterIdx ∈ classified_data).
  { apply (checkFrom_flag _ _ _ _ Hret Hflag). apply elem_of_seq. lia. }
  apply list_elem_of_lookup in Hin as [dataIdx Hd].
  destruct (lookup_lt_is_Some_2 data dataIdx) as [p Hp].
  { rewrite <- Hlen. eapply lookup_lt_Some. exact Hd. }
  now exists dataIdx, p.
Qed.

End KMeansProperties.

Module SelectionFacts.

Import KmeansFilter ViewParams.

Lemma setDelete_elem (x : string) (set : list string) (s : string) :
  s ∈ setDelete x set <-> s ∈ set /\ s <> x.
Proof. unfold setDelete. rewrite list_elem_of_filter. tauto. Qed.

Lemma setDelete_absent (x : string) (set : list string) :
  x ∉ set -> setDelete x set = set.
Proof.
  intros Hx. unfold setDelete. induction set as [|y set IH]; [reflexivity|].
  rewrite filter_cons, decide_True.
  - f_equal. apply IH. intros Hin. apply Hx. now right.
  - intros ->. apply Hx. left.
Qed.

Lemma setDelete_head (x : string) (set : list string) :
  x ∉ set -> setDelete x (x :: set) = set.
Proof.
  intros Hx. unfold setDelete. rewrite filter_cons, decide_False by tauto.
  now apply setDelete_absent.
Qed.

Lemma setDelete_length (x : string) (set : list string) :
  NoDup set -> x ∈ set -> length (setDelete x set) + 1 = length set.
Proof.
  intros Hnd Hx. apply list_elem_of_split in Hx as (l1 & l2 & ->).
  apply NoDup_app in Hnd as (_ & Hdis & [Hx2 _]%NoDup_cons).
  unfold setDelete. rewrite filter_app, filter_cons, decide_False by tauto.
  fold (setDelete x l1) (setDelete x l2).
  rewrite !setDelete_absent; [rewrite !length_app; simpl; lia | exact Hx2 |].
  intros Hin. apply (Hdis x Hin). left.
Qed.

End SelectionFacts.

Module LoaderFacts.

Import JsNum DataLoader.

Lemma recordsOf_sensor (name : string) (sd : SensorJson) (ds : list Datum) :
  recordsOf name sd = Some ds ->
  map sensor ds = if presence sd then [name] else [].
Proof.
  unfold recordsOf. destruct (presence sd); [|now intros [= <-]].
  destruct (location sd); simpl; [|discriminate]. now intros [= <-].
Qed.

End LoaderFacts.

Section InterfaceProperties.

Import JsNum KmeansFilter ViewParams DataLoader SelectionFacts LoaderFacts ReductionFacts.

(** X27: [selectSensor] keeps the selection a set of at most
    [selectedSensorsLimit] sensors: a selected sensor is removed, a new
    one is appended, and when the selection is full the oldest sensor
    leaves for it. *)
Theorem selectSensor_toggles (selectedSensorsLimit : nat)
    (selectedSensors : list string) (sensor : string) :
  NoDup selectedSensors ->
  length selectedSensors <= selectedSensorsLimit ->
  let after := selectSensor selectedSensorsLimit selectedSensors sensor in
  NoDup after
  /\ length after <= selectedSensorsLimit
  /\ (sensor ∈ selectedSensors ->
      (sensor ∉ after) /\ after = setDelete sensor selectedSensors
      /\ length after + 1 = length selectedSensors)
  /\ (sensor ∉ selectedSensors -> length selectedSensors < selectedSensorsLimit ->
      after = selectedSensors ++ [sensor])
  /\ (sensor ∉ selectedSensors -> length selectedSensors = selectedSensorsLimit ->
      after = tail (selectedSensors ++ [sensor])).
Proof.
  intros Hnd Hlen after. subst after. unfold selectSensor.
  destruct (decide (sensor ∈ selectedSensors)) as [Hin|Hin].
  - pose proof (setDelete_length sensor selectedSensors Hnd Hin) as Hl.
    rewrite decide_False by lia.
    split; [now apply NoDup_filter|]. split; [lia|].
    split; [|split; intros; contradiction].
    intros _. split; [|now split].
    intros [_ Hne]%setDelete_elem. now apply Hne.
  - unfold setAdd. destruct (decide (sensor ∈ selectedSensors)); [contradiction|].
    assert (Hnd' : NoDup (selectedSensors ++ [sensor])).
    { apply NoDup_app. split; [exact Hnd|]. split; [|apply NoDup_singleton].
      intros y Hy ->%list_elem_of_singleton. contradiction. }
    rewrite length_app. simpl.
    destruct (decide (selectedSensorsLimit < length selectedSensors + 1)) as [Hfull|Hroom].
    + assert (Hcase : match selectedSensors ++ [sensor] with
                      | firstSensor :: _ => setDelete firstSensor (selectedSensors ++ [sensor])
                      | [] => selectedSensors ++ [sensor]
                      end = tail (selectedSensors ++ [sensor])).
      { destruct (selectedSensors ++ [sensor]) as [|first rest] eqn:E; [reflexivity|].
        simpl. apply setDelete_head. now apply NoDup_cons in Hnd' as [? _]. }
      rewrite Hcase.
      split.
      { destruct (selectedSensors ++ [sensor]) as [|first rest]; [constructor|].
        simpl. now apply NoDup_cons in Hnd' as [_ ?]. }
      split.
      { assert (Hl : length (selectedSensors ++ [sensor]) = length selectedSensors + 1)
          by (rewrite length_app; reflexivity).
        destruct (selectedSensors ++ [sensor]) as [|first rest]; simpl in *; lia. }
      split; [intros; contradiction|]. split; [intros; lia | reflexivity].
    + split; [exact Hnd'|]. split; [rewrite length_app; simpl; lia|].
      split; [intros; contradiction|]. split; [reflexivity | intros; lia].
Qed.

(** X28: when every sensor with a truthy [presence] has a [location],
    [loadDataAVG] yields one record per such sensor, in the order of the
    keys; distinct keys give distinct sensor identifiers. *)
Theorem processDataAVG_sensors (jsonData : list (string * SensorJson)) :
  (forall name sd, (name, sd) ∈ jsonData -> presence sd = true ->
                   is_Some (location sd)) ->
  map sensor (processDataAVG jsonData)
  = map fst (filter (fun e => presence e.2 = true) jsonData)
  /\ (NoDup (map fst jsonData) -> NoDup (map sensor (processDataAVG jsonData))).
Proof.
  intros Hloc.
  assert (E : map sensor (processDataAVG jsonData)
              = map fst (filter (fun e => presence e.2 = true) jsonData)).
  { unfold processDataAVG.
    destruct (mapM _ jsonData) as [chunks|] eqn:Em.
    2: { exfalso. apply mapM_None_1 in Em.
         apply Exists_exists in Em as ([n s] & Hin & Hnone).
         unfold recordsOf in Hnone. destruct (presence s) eqn:Ep; [|discriminate].
         destruct (Hloc n s Hin Ep) as [l Hl]. rewrite Hl in Hnone. discriminate. }
    simpl. apply mapM_Some_1 in Em. clear Hloc.
    induction Em as [|[n s] ds rest chunks Hr Hf IH]; [reflexivity|].
    apply recordsOf_sensor in Hr. cbn [concat]. rewrite map_app, Hr, IH, filter_cons.
    cbn [snd]. destruct (presence s);
      [rewrite decide_True by reflexivity | rewrite decide_False by discriminate];
      reflexivity. }
  split; [exact E|]. intros Hnd. rewrite E.
  assert (Hsub : map fst (filter (fun e => presence e.2 = true) jsonData)
                 `sublist_of` map fst jsonData).
  { apply (fmap_sublist fst), sublist_filter. }
  eapply sublist_NoDup; eassumption.
Qed.

(** X29: one sensor with a truthy [presence] and no [location] makes
    [loadDataAVG] return the empty array: the exception is caught around
    the whole conversion. *)
Theorem processDataAVG_missing_location (jsonData : list (string * SensorJson))
    (name : string) (sd : SensorJson) :
  (name, sd) ∈ jsonData ->
  presence sd = true ->
  location sd = None ->
  processDataAVG jsonData = [].
Proof.
  intros Hin Hp Hl. unfold processDataAVG.
  rewrite (proj2 (mapM_None _ jsonData)); [reflexivity|].
  apply Exists_exists. exists (name, sd). split; [exact Hin|].
  simpl. unfold recordsOf. now rewrite Hp, Hl.
Qed.

End InterfaceProperties.

Section SampleProperties.

Import JsNum JsMath Greedy KMeans KmeansFilter CacheExport ViewParams DataLoader.
Import EmptyClusters Samples MoreSamples.

(** X1, the stored area of the two stacked glyphs. *)
Lemma intersectMatrix_stores_overlaps_witness :
  exists area,
    cell (buildIntersectMatrix (H := sampleMath)
            (sensorBounds (H := sampleMath) stackedGlyphs 15)) "a" "b" = Some area
    /\ gt area 0 = true.
Proof.
  eexists. split; [vm_compute; reflexivity|].
  refine (proj1 (intersectMatrix_stores_overlaps (H := sampleMath)
                   stackedGlyphs 15%float "a" "b" _ _)).
  vm_compute. reflexivity.
Defined.


(** X13, the export after the two glyphs were filtered and stored. *)
Lemma download_after_store_witness :
  exists file,
    downloadCache "bef_0" twoGlyphsStorage = Some (file, twoGlyphsText)
    /\ cacheFilePath "bef_0" = CACHE_DIR +:+ "/" +:+ file.
Proof.
  assert (Hmiss : cacheMiss sampleHost ∅ "bef_0" false).
  { split; [reflexivity | left; reflexivity]. }
  exact (download_after_store (H := sampleMath) sampleHost ∅ twoGlyphsStorage twoGlyphs
           "0" "bef_0" false false twoGlyphsResult Hmiss
           ltac:(discriminate) eq_refl ltac:(vm_compute; reflexivity)
           ltac:(vm_compute; discriminate)).
Defined.

(** X15, the second of the two glyphs, grouped with the first one, which
    represents it. *)
Lemma kmeans_every_glyph_represented_witness :
  exists group rep,
    (Some 0%Z, group) ∈ groupByCluster twoGlyphs [0; 0]%Z
    /\ glyph "b" 0 1 ∈ group
    /\ representative (H := sampleMath) [Some [0; 0]%float] (Some 0%Z, group) = Some rep
    /\ rep ∈ group
    /\ rep ∈ twoGlyphs
    /\ sensor rep ∈ filteredInSensors twoGlyphsResult.
Proof.
  exact (kmeans_every_glyph_represented (H := sampleMath) twoGlyphs [0; 0]%Z
           [Some [0; 0]%float] twoGlyphsResult 1 (glyph "b" 0 1)
           ltac:(vm_compute; reflexivity) eq_refl).
Defined.

(** X16, the count of the representative of the two glyphs. *)
Lemma kmeans_counts_bounds_witness :
  "a" ∈ filteredInSensors twoGlyphsResult /\ 2 <= 2 <= length twoGlyphs.
Proof.
  destruct (kmeans_counts_bounds (H := sampleMath) twoGlyphs [0; 0]%Z
              [Some [0; 0]%float] twoGlyphsResult "a" 2
              ltac:(vm_compute; reflexivity) ltac:(vm_compute; reflexivity))
    as (Hin & Hb & _).
  split; [exact Hin | exact Hb].
Defined.

(** X17, one visible sensor for the one group of the two glyphs. *)
Lemma kmeans_visible_bounds_witness :
  NoDup (filteredInSensors twoGlyphsResult)
  /\ length (filteredInSensors twoGlyphsResult) <= length (groupByCluster twoGlyphs [0; 0]%Z).
Proof.
  destruct (kmeans_visible_bounds (H := sampleMath) twoGlyphs [0; 0]%Z
              [Some [0; 0]%float] twoGlyphsResult ltac:(vm_compute; reflexivity))
    as (Hnd & Hl & _).
  split; [exact Hnd | exact Hl].
Defined.

(** X20, two points classified to the centroids that lie on them. *)
Lemma classifyData_range_witness :
  length [0; 1]%Z = length twoPoints.
Proof.
  exact (proj1 (classifyData_range (H := sampleMath) twoPoints twoCentroids [0; 1]%Z
                  ltac:(vm_compute; reflexivity))).
Defined.

(** X22, a seeding of two centroids whose second draw falls past the end
    of the weighted list. *)
Lemma smartInit_shape_witness :
  length [Some [0; 0]%float; None] = Nat.max 2 1.
Proof.
  exact (proj1 (smartInit_shape (H := sampleMath) seedPoints 2 [0; 0.9921875]%float
                  [Some [0; 0]%float; None] [] ltac:(vm_compute; reflexivity))).
Defined.

(** X24, both clusters have a point. *)
Lemma checkEmptyClusters_none_empty_witness :
  checkEmptyClusters (H := sampleMath) twoPoints [0; 1]%Z twoCentroids []
  = Some {| classified := [0; 1]%Z; centroids := twoCentroids;
            emptyClusters := false; draws := [] |}.
Proof.
  apply (checkEmptyClusters_none_empty (H := sampleMath) twoPoints [0; 1]%Z twoCentroids []).
  intros i Hi. destruct i as [|[|i]]; [left | right; left | simpl in Hi; lia].
Defined.

(** X25, both points in cluster 1: cluster 0 is re-seeded on the second
    point, and cluster 1, which holds every point, is re-seeded too, with
    [undefined]. *)
Lemma checkEmptyClusters_reseeds_rest_witness :
  let st := {| classified := []; centroids := [Some [3; 4]%float; None];
               emptyClusters := true; draws := [] |} in
  checkEmptyClusters (H := sampleMath) seedPoints [1; 1]%Z stackedCentroids [0.5; 0.5]%float
  = Some st
  /\ emptyClusters st = true
  /\ classified st = [].
Proof.
  intros st.
  assert (Hret : checkEmptyClusters (H := sampleMath) seedPoints [1; 1]%Z
                   stackedCentroids [0.5; 0.5]%float = Some st)
    by (vm_compute; reflexivity).
  split; [exact Hret|].
  destruct (checkEmptyClusters_reseeds_rest (H := sampleMath) seedPoints [1; 1]%Z
              stackedCentroids [0.5; 0.5]%float 0 st Hret)
    as (Hflag & Hcl & _).
  - simpl. lia.
  - intros [Hin|Hin]%elem_of_cons; [discriminate Hin|].
    apply list_elem_of_singleton in Hin. discriminate Hin.
  - intros i Hi. lia.
  - split; [exact Hflag | exact Hcl].
Defined.

(** X26, after a classification of the two points with both clusters used,
    the recentering returns. *)
Lemma mover_defined_after_check_witness :
  is_Some (MoveWorker.moveCenters twoPoints twoCentroids [0; 1]%Z).
Proof.
  exact (mover_defined_after_check (H := sampleMath) twoPoints [0; 1]%Z twoCentroids []
           {| classified := [0; 1]%Z; centroids := twoCentroids;
              emptyClusters := false; draws := [] |}
           ltac:(vm_compute; reflexivity) eq_refl eq_refl).
Defined.

(** X27, a third sensor selected under a limit of two. *)
Lemma selectSensor_toggles_witness :
  selectSensor 2 ["a"; "b"] "c" = tail (["a"; "b"] ++ ["c"]).
Proof.
  assert (Hnd : NoDup ["a"; "b"]).
  { apply NoDup_cons. split; [|apply NoDup_singleton].
    intros Hin%list_elem_of_singleton. discriminate Hin. }
  assert (Hlen : length ["a"; "b"] <= 2) by (simpl; lia).
  destruct (selectSensor_toggles 2 ["a"; "b"] "c" Hnd Hlen) as (_ & _ & _ & _ & Hfull).
  apply Hfull; [|reflexivity].
  intros [Hin|Hin]%elem_of_cons; [discriminate Hin|].
  apply list_elem_of_singleton in Hin. discriminate Hin.
Defined.

(** X28, the sample file gives the one present sensor. *)
Lemma processDataAVG_sensors_witness :
  map sensor (processDataAVG sampleJson) = ["a"].
Proof.
  refine (proj1 (processDataAVG_sensors sampleJson _)).
  intros name sd [Hin|Hin]%elem_of_cons Hp.
  - injection Hin as -> ->. now eexists.
  - apply list_elem_of_singleton in Hin. injection Hin as -> ->. discriminate Hp.
Defined.

(** X29, the file whose present sensor has no [location] gives nothing. *)
Lemma processDataAVG_missing_location_witness :
  processDataAVG brokenJson = [].
Proof.
  apply (processDataAVG_missing_location brokenJson "a"
           {| presence := true; location := None |}).
  - left.
  - reflexivity.
  - reflexivity.
Defined.

End SampleProperties.
